(** * Port-knocking server: a shallow embedding of [knock_server.py]

    The development follows [src/port_knocking/knock_server.py]:
    - the firewall helpers [open_protected_port] and [close_protected_port],
    - the body of [listen_for_knocks]: binding the knock sockets, the
      per-connection session tracking and the periodic clean-up,
    - [main]: parsing of the [--sequence] option and the start-up order.
    It also covers the knock client [src/port_knocking/knock_client.py]
    and the parsing and the scan loop of [src/port_scanner/main.py].

    Modelling choices.
    - Ports are Python integers, here [Z].
    - Time stamps and the window are Python floats.  They are modelled as
      rationals [Q]: only subtraction and the comparison [>] are used on
      them, rounding and the non-finite floats are not modelled.
    - [knock_attempts] is a [dict] keyed by the client address, here a
      [gmap string session].  The order in which a dict is iterated only
      shows in the order of the clean-up log lines.
    - A Python [str] is modelled by the string of its bytes in UTF-8, so
      an ASCII text is a string of characters below 128.  [int] is modelled
      on ASCII texts, where it skips tab, line feed, vertical tab, form
      feed, carriage return and space and reads the digits 0-9; statements
      about a text that [int] rejects assume an ASCII text.
    - [int] and [str] follow CPython 3.11 and later with the default limit
      of 4300 digits: beyond it both raise [ValueError].  The integers of
      a run all come out of [int] (the ports of the sequence, the
      protected port), so [str] and the log lines never fail on them.
    - The outside world is an oracle: what [accept] returns on each socket,
      what [time.time()] returns, which [bind] calls succeed and what
      [subprocess.run] does are inputs of the model.
    - The [while True] loop never returns; the model runs any finite
      number of its iterations. *)

From Stdlib Require Import ZArith QArith String Ascii List.
From stdpp Require Import base option list strings gmap fin_maps.
Import ListNotations.

Local Open Scope Z_scope.
Local Open Scope string_scope.
Local Open Scope list_scope.

(** ** Observable effects *)

(** The two [iptables] command lines the server runs. *)
Inductive iptables_rule :=
  | InsertAccept (dport : Z) (source : string)
      (* iptables -I INPUT 1 -p tcp --dport dport -s source -j ACCEPT *)
  | AppendDrop (dport : Z).
      (* iptables -A INPUT -p tcp --dport dport -j DROP *)

Inductive level := INFO | WARNING | ERROR.

Inductive message :=
  | MsgListeningFor (sequence : list Z)          (* line 64 *)
  | MsgProtectedPort (port : Z)                  (* line 65 *)
  | MsgWindow (window : Q)                       (* line 66 *)
  | MsgListening (port : Z)                      (* line 81 *)
  | MsgBindFailed (port : Z)                     (* line 83 *)
  | MsgReady                                     (* line 86 *)
  | MsgKnock (client_ip : string) (port : Z)     (* line 93 *)
  | MsgTimeout (client_ip : string)              (* line 108 *)
  | MsgProgress (client_ip : string) (ports : list Z)   (* line 119 *)
  | MsgCorrect (client_ip : string)              (* line 124 *)
  | MsgOpening (port : Z) (client_ip : string)   (* line 125 *)
  | MsgIncorrect (client_ip : string) (ports : list Z)  (* line 129 *)
  | MsgExpected (sequence : list Z)              (* line 130 *)
  | MsgError                                     (* line 136 *)
  | MsgCleanup (client_ip : string)              (* line 145 *)
  | MsgOpened (port : Z) (client_ip : string)    (* line 36 *)
  | MsgOpenFailed                                (* line 38 *)
  | MsgDemoMode                                  (* lines 40 and 58 *)
  | MsgClosed (port : Z)                         (* line 54 *)
  | MsgCloseFailed                               (* line 56 *)
  | MsgInitFirewall.                             (* line 184 *)

(** What the process does to the outside: it runs [iptables] or it logs. *)
Inductive effect :=
  | Iptables (rule : iptables_rule)
  | Log (lvl : level) (msg : message).

(** The access gateway of the specification, as the code enacts it. *)
Definition grant (protected_port : Z) (client_ip : string) : effect :=
  Iptables (InsertAccept protected_port client_ip).
Definition deny_by_default (protected_port : Z) : effect :=
  Iptables (AppendDrop protected_port).

Definition is_grant (e : effect) : bool :=
  match e with Iptables (InsertAccept _ _) => true | _ => false end.
Definition is_gateway_call (e : effect) : bool :=
  match e with Iptables _ => true | Log _ _ => false end.
Definition is_knock (e : effect) : bool :=
  match e with Log _ (MsgKnock _ _) => true | _ => false end.
Definition is_rejection (e : effect) : bool :=
  match e with Log _ (MsgIncorrect _ _) => true | _ => false end.
Definition is_report (e : effect) : bool :=
  match e with Log ERROR _ | Log WARNING _ => true | _ => false end.

(** ** The firewall helpers *)

(** What [subprocess.run([...], check=True)] does: it returns, it raises
    [CalledProcessError] (non-zero exit status), it raises
    [FileNotFoundError] (no [iptables] on the path), or it raises another
    exception ([PermissionError] and the other [OSError]s of a failed
    [exec] or [fork]). *)
Inductive run_result :=
  | RunOk
  | RunCalledProcessError
  | RunFileNotFoundError
  | RunOtherError.

(** A call either returns or lets an exception escape. *)
Inductive outcome := Returned | Raised.

(** [open_protected_port], lines 24-41. *)
Definition open_protected_port (protected_port : Z) (client_ip : string)
    (run : run_result) : list effect * outcome :=
  match run with
  | RunOk =>
      ([grant protected_port client_ip;
        Log INFO (MsgOpened protected_port client_ip)], Returned)
  | RunCalledProcessError =>
      ([grant protected_port client_ip; Log ERROR MsgOpenFailed], Returned)
  | RunFileNotFoundError =>
      ([grant protected_port client_ip; Log WARNING MsgDemoMode], Returned)
  | RunOtherError =>
      ([grant protected_port client_ip], Raised)
  end.

(** [close_protected_port], lines 43-58. *)
Definition close_protected_port (protected_port : Z) (run : run_result)
    : list effect * outcome :=
  match run with
  | RunOk =>
      ([deny_by_default protected_port;
        Log INFO (MsgClosed protected_port)], Returned)
  | RunCalledProcessError =>
      ([deny_by_default protected_port; Log ERROR MsgCloseFailed], Returned)
  | RunFileNotFoundError =>
      ([deny_by_default protected_port; Log WARNING MsgDemoMode], Returned)
  | RunOtherError =>
      ([deny_by_default protected_port], Raised)
  end.

(** ** Sessions *)

(** One entry of [knock_attempts]: [{'ports': [...], 'start_time': t}]. *)
Record session := Session { ports : list Z; start_time : Q }.

(** [a > b] on time stamps. *)
Definition Qgtb (a b : Q) : bool := negb (Qle_bool a b).

(** [current_time - data['start_time'] > window_seconds]. *)
Definition expired (window_seconds : Q) (current_time : Q) (s : session) : bool :=
  Qgtb (current_time - start_time s) window_seconds.

(** What [sock.accept()] gives in one turn of the [for] loop: the
    [socket.timeout] of an idle socket, another exception, or a connection
    from [client_ip]; with a connection come the value of [time.time()]
    read on line 96 and what [iptables] would do if it is run. *)
Inductive accept_result :=
  | AcceptTimeout
  | AcceptError
  | Accepted (client_ip : string) (current_time : Q) (run : run_result).

Section Engine.

Variable sequence : list Z.
Variable window_seconds : Q.
Variable protected_port : Z.

(** Lines 98-115: create the entry if the address is new, then either
    reset it (window expired) or append the port. *)
Definition record_knock (knock_attempts : gmap string session)
    (client_ip : string) (knock_port : Z) (current_time : Q)
    : gmap string session * list effect :=
  let knock_attempts :=
    match knock_attempts !! client_ip with
    | None => <[client_ip := Session [] current_time]> knock_attempts
    | Some _ => knock_attempts
    end in
  match knock_attempts !! client_ip with
  | Some s =>
      if expired window_seconds current_time s
      then (<[client_ip := Session [knock_port] current_time]> knock_attempts,
            [Log WARNING (MsgTimeout client_ip)])
      else (<[client_ip := Session (ports s ++ [knock_port]) (start_time s)]>
              knock_attempts, [])
  | None => (knock_attempts, [])   (* KeyError: the entry exists by now *)
  end.

(** Lines 117-131: compare once the length is reached. *)
Definition check_sequence (knock_attempts : gmap string session)
    (client_ip : string) (run : run_result)
    : gmap string session * list effect * outcome :=
  match knock_attempts !! client_ip with
  | Some s =>
      let current_sequence := ports s in
      let progress := [Log INFO (MsgProgress client_ip current_sequence)] in
      if bool_decide (length current_sequence = length sequence) then
        if bool_decide (current_sequence = sequence) then
          let announce := [Log INFO (MsgCorrect client_ip);
                           Log INFO (MsgOpening protected_port client_ip)] in
          match open_protected_port protected_port client_ip run with
          | (effs, Returned) =>
              (delete client_ip knock_attempts,
               progress ++ announce ++ effs, Returned)
          | (effs, Raised) =>
              (knock_attempts, progress ++ announce ++ effs, Raised)
          end
        else
          (delete client_ip knock_attempts,
           progress ++ [Log WARNING (MsgIncorrect client_ip current_sequence);
                        Log INFO (MsgExpected sequence)], Returned)
      else (knock_attempts, progress, Returned)
  | None => (knock_attempts, [], Raised)   (* KeyError *)
  end.

(** Lines 92-131, the [try] body after a successful [accept]. *)
Definition process_knock (knock_attempts : gmap string session)
    (knock_port : Z) (client_ip : string) (current_time : Q) (run : run_result)
    : gmap string session * list effect * outcome :=
  let '(recorded, effs1) :=
    record_knock knock_attempts client_ip knock_port current_time in
  let '(checked, effs2, o) := check_sequence recorded client_ip run in
  (checked, Log INFO (MsgKnock client_ip knock_port) :: effs1 ++ effs2, o).

(** Lines 90-136: one socket of the [for] loop, with its handlers. *)
Definition poll_socket (knock_attempts : gmap string session)
    (knock_port : Z) (a : accept_result)
    : gmap string session * list effect :=
  match a with
  | AcceptTimeout => (knock_attempts, [])
  | AcceptError => (knock_attempts, [Log ERROR MsgError])
  | Accepted client_ip current_time run =>
      match process_knock knock_attempts knock_port client_ip current_time run with
      | (ka, effs, Returned) => (ka, effs)
      | (ka, effs, Raised) => (ka, effs ++ [Log ERROR MsgError])
      end
  end.

(** Lines 89-136: the [for] loop over the bound sockets.  [accepts] gives
    what [accept] returns on each socket in turn; a socket without an entry
    is idle. *)
Fixpoint poll_sockets (knock_attempts : gmap string session)
    (sockets : list Z) (accepts : list accept_result)
    : gmap string session * list effect :=
  match sockets with
  | [] => (knock_attempts, [])
  | knock_port :: sockets' =>
      let '(ka, effs) :=
        poll_socket knock_attempts knock_port (hd AcceptTimeout accepts) in
      let '(ka', effs') := poll_sockets ka sockets' (tl accepts) in
      (ka', effs ++ effs')
  end.

(** Lines 140-143: the addresses whose entry is older than the window. *)
Definition expired_ips (knock_attempts : gmap string session)
    (current_time : Q) : list string :=
  (map_to_list knock_attempts
     ≫= λ '(ip, data),
          if expired window_seconds current_time data then [ip] else []).

(** Lines 144-146: delete them, one log line each. *)
Fixpoint delete_expired (knock_attempts : gmap string session)
    (ips : list string) : gmap string session * list effect :=
  match ips with
  | [] => (knock_attempts, [])
  | ip :: ips' =>
      let '(ka, effs) := delete_expired (delete ip knock_attempts) ips' in
      (ka, Log INFO (MsgCleanup ip) :: effs)
  end.

(** Lines 138-146: the clean-up at the end of each iteration. *)
Definition cleanup (knock_attempts : gmap string session) (current_time : Q)
    : gmap string session * list effect :=
  delete_expired knock_attempts (expired_ips knock_attempts current_time).

(** One iteration of [while True]: what each socket accepts, and the
    time read on line 139. *)
Record iteration := Iteration { accepts : list accept_result; sweep_time : Q }.

(** The state of the running server: the dict and everything done so far. *)
Record server := Server { knock_attempts : gmap string session;
                          trace : list effect }.

Definition loop_iteration (sockets : list Z) (st : server) (it : iteration)
    : server :=
  let '(ka, effs) := poll_sockets (knock_attempts st) sockets (accepts it) in
  let '(ka', effs') := cleanup ka (sweep_time it) in
  Server ka' (trace st ++ effs ++ effs').

(** Lines 72-84: one socket per port of the sequence; [binds] tells which
    [bind] calls succeed (a port without an entry binds). *)
Fixpoint create_listeners (ports : list Z) (binds : list bool)
    : list Z * list effect :=
  match ports with
  | [] => ([], [])
  | port :: ports' =>
      let '(sockets, effs) := create_listeners ports' (tl binds) in
      if hd true binds
      then (port :: sockets, Log INFO (MsgListening port) :: effs)
      else (sockets, Log ERROR (MsgBindFailed port) :: effs)
  end.

(** [listen_for_knocks], lines 61-148, run for the iterations of [its]. *)
Definition listen_for_knocks (binds : list bool) (its : list iteration)
    : server :=
  let '(sockets, effs) := create_listeners sequence binds in
  fold_left (loop_iteration sockets) its
    (Server ∅ ([Log INFO (MsgListeningFor sequence);
                 Log INFO (MsgProtectedPort protected_port);
                 Log INFO (MsgWindow window_seconds)]
                ++ effs ++ [Log INFO MsgReady])).

End Engine.

(** ** Parsing the [--sequence] option *)

(** [str.split(sep)] for a one-character separator. *)
Fixpoint split (sep : ascii) (s : string) : list string :=
  match s with
  | EmptyString => [EmptyString]
  | String c s' =>
      if Ascii.eqb c sep then EmptyString :: split sep s'
      else match split sep s' with
           | field :: fields => String c field :: fields
           | [] => [String c EmptyString]
           end
  end.

(** The white space [int] skips around a literal: tab, line feed, vertical
    tab, form feed, carriage return and space. *)
Definition py_isspace (c : ascii) : bool :=
  let n := nat_of_ascii c in
  ((9 <=? n)%nat && (n <=? 13)%nat) || (n =? 32)%nat.

Definition digit_value (c : ascii) : option Z :=
  let n := nat_of_ascii c in
  if ((48 <=? n)%nat && (n <=? 57)%nat)%bool
  then Some (Z.of_nat (n - 48)) else None.

Fixpoint lstrip (s : string) : string :=
  match s with
  | String c s' => if py_isspace c then lstrip s' else s
  | EmptyString => EmptyString
  end.

Definition rstrip (s : string) : string :=
  String.rev (lstrip (String.rev s)).

(** Decimal digits, single underscores allowed between two digits.
    [after_digit] tells whether the previous character was a digit. *)
Fixpoint parse_digits (acc : Z) (after_digit : bool) (s : string) : option Z :=
  match s with
  | EmptyString => if after_digit then Some acc else None
  | String c s' =>
      match digit_value c with
      | Some d => parse_digits (10 * acc + d) true s'
      | None =>
          if (Ascii.eqb c "_" && after_digit)%bool
          then parse_digits acc false s'
          else None
      end
  end.

(** The integer that a text denotes in base 10, if it is an integer
    literal: white space around it, an optional sign, digits. *)
Definition int_literal (s : string) : option Z :=
  match rstrip (lstrip s) with
  | String "+" digits => parse_digits 0 false digits
  | String "-" digits => Z.opp <$> parse_digits 0 false digits
  | literal => parse_digits 0 false literal
  end.

(** The default of [sys.get_int_max_str_digits()]: the longest decimal
    text, in digits, that [int] reads and [str] writes. *)
Definition INT_MAX_STR_DIGITS : Z := 4300.

(** The digits of a text; underscores, signs and white space do not
    count. *)
Fixpoint count_digits (s : string) : nat :=
  match s with
  | EmptyString => O
  | String c s' =>
      match digit_value c with
      | Some _ => S (count_digits s')
      | None => count_digits s'
      end
  end.

(** [int(s)] in base 10 for an ASCII text [s]: [None] stands for
    [ValueError], which is raised for a text that is no integer literal
    and for a text of more than [INT_MAX_STR_DIGITS] digits. *)
Definition py_int (s : string) : option Z :=
  if (INT_MAX_STR_DIGITS <? Z.of_nat (count_digits s))%Z then None
  else int_literal s.

(** Line 178: [[int(port) for port in args.sequence.split(",")]]. *)
Definition parse_sequence (s : string) : option (list Z) :=
  mapM py_int (split "," s).

(** ** [main] *)

Record arguments := Namespace { arg_sequence : string;
                                 arg_protected_port : Z;
                                 arg_window : Q }.

(** The defaults of [parse_args], lines 11-13 and 151-170. *)
Definition DEFAULT_KNOCK_SEQUENCE : list Z := [1234; 5678; 9012].
Definition DEFAULT_PROTECTED_PORT : Z := 2222.
Definition DEFAULT_SEQUENCE_WINDOW : Q := 10.

(** What the outside world does during a run of [main]. *)
Record world := World { close_run : run_result;
                        binds : list bool;
                        iterations : list iteration }.

(** How far a run gets: [SystemExit] of line 180, an exception that
    escapes [close_protected_port], or the listening loop. *)
Inductive run_state :=
  | SystemExit (msg : string)
  | Crashed
  | Listening (knock_attempts : gmap string session).

(** [main], lines 173-187: the state reached and everything done. *)
Definition main (args : arguments) (w : world) : run_state * list effect :=
  match parse_sequence (arg_sequence args) with
  | None => (SystemExit "Invalid sequence. Use comma-separated integers.", [])
  | Some sequence =>
      let init := [Log INFO MsgInitFirewall] in
      match close_protected_port (arg_protected_port args) (close_run w) with
      | (effs, Raised) => (Crashed, init ++ effs)
      | (effs, Returned) =>
          let st := listen_for_knocks sequence (arg_window args)
                      (arg_protected_port args) (binds w) (iterations w) in
          (Listening (knock_attempts st), init ++ effs ++ trace st)
      end
  end.

(** ** The default of the [--sequence] option *)

(** The character of a decimal digit. *)
Definition digit_char (d : Z) : ascii := ascii_of_nat (48 + Z.to_nat d).

(** The decimal digits of [n >= 0] in front of [acc]; [fuel] bounds the
    number of digits. *)
Fixpoint str_digits (fuel : nat) (n : Z) (acc : string) : string :=
  match fuel with
  | O => acc
  | S fuel' =>
      let acc' := String (digit_char (n mod 10)) acc in
      if (n <? 10)%Z then acc' else str_digits fuel' (n / 10) acc'
  end.

(** The decimal text of an integer: a minus sign for a negative number,
    then the digits without leading zeros. *)
Definition str_int (z : Z) : string :=
  if (z <? 0)%Z
  then String "-" (str_digits (S (Z.to_nat (Z.log2 (- z)))) (- z) "")
  else str_digits (S (Z.to_nat (Z.log2 z))) z "".

(** [str(z)] for an integer: [None] stands for the [ValueError] of a
    number of more than [INT_MAX_STR_DIGITS] digits. *)
Definition py_str (z : Z) : option string :=
  if (INT_MAX_STR_DIGITS <? Z.of_nat (count_digits (str_int z)))%Z then None
  else Some (str_int z).

(** Lines 153-157: [",".join(str(port) for port in ports)]. *)
Definition sequence_option (ports : list Z) : option string :=
  String.concat "," <$> mapM py_str ports.

(** [parse_args], lines 151-170, without options on the command line. *)
Definition parse_args_defaults : option arguments :=
  text ← sequence_option DEFAULT_KNOCK_SEQUENCE;
  Some (Namespace text DEFAULT_PROTECTED_PORT DEFAULT_SEQUENCE_WINDOW).

(** ** The knock client ([knock_client.py]) *)

















(** ** The port scanner ([port_scanner/main.py]) *)

(** [parse_ports], lines 53-58: [None] stands for the
    [ArgumentTypeError]. *)
Definition parse_ports (port_range : string) : option (Z * Z) :=
  match split "-" port_range with
  | [start; end_] =>
      match py_int start, py_int end_ with
      | Some a, Some b => Some (a, b)
      | _, _ => None
      end
  | _ => None
  end.

(** What one call of [scan_port] meets: [connect_ex] returns 0 and the
    banner grab gives [banner] (the empty string if it raises),
    [connect_ex] returns an error code, or an exception is raised. *)
Inductive probe :=
  | ConnectExZero (banner : string)
  | ConnectExError
  | ProbeException.

Inductive port_state := OPEN | CLOSED | FILTERED.

(** The dict that [scan_port] returns. *)
Record scan_result := ScanResult {
  scan_port_number : Z;
  scan_state : port_state;
  scan_time : Q;
  scan_banner : string }.

(** [scan_port], lines 7-50; [elapsed] is the time measured. *)
Definition scan_port (port : Z) (pr : probe) (elapsed : Q) : scan_result :=
  match pr with
  | ConnectExZero banner => ScanResult port OPEN elapsed banner
  | ConnectExError => ScanResult port CLOSED elapsed ""
  | ProbeException => ScanResult port FILTERED elapsed ""
  end.

(** [range(start, stop)]. *)
Definition py_range (start stop : Z) : list Z := seqZ start (stop - start).

Definition is_open (r : scan_result) : bool :=
  match scan_state r with OPEN => true | _ => false end.

(** Lines 72-85 of [main]: the results of the loop over
    [range(start_port, end_port + 1)] and the list [open_ports].  [net]
    tells what each port answers and how long that takes. *)
Definition scan_range (start_port end_port : Z) (net : Z → probe * Q)
    : list scan_result * list scan_result :=
  let results :=
    map (λ port, scan_port port (net port).1 (net port).2)
        (py_range start_port (end_port + 1)) in
  (results, List.filter is_open results).

(** ** Vocabulary of the statements *)

(** The [iptables] commands among the effects, in order. *)
Fixpoint gateway_calls (effs : list effect) : list iptables_rule :=
  match effs with
  | [] => []
  | Iptables r :: effs' => r :: gateway_calls effs'
  | Log _ _ :: effs' => gateway_calls effs'
  end.

(** Whether [open_protected_port] handles what [subprocess.run] does. *)
Definition handled (run : run_result) : bool :=
  match run with RunOtherError => false | _ => true end.

(** An [accept] after which no exception escapes the firewall helper. *)
Definition handled_accept (a : accept_result) : Prop :=
  match a with Accepted _ _ run => handled run = true | _ => True end.

(** Every [accept]. *)
Definition any_accept (a : accept_result) : Prop := True.

(** The entry an address has after lines 98-115, from the entry it had. *)
Definition advance (w : Q) (t : Q) (port : Z) (o : option session) : session :=
  match o with
  | None => Session [port] t
  | Some s => if expired w t s then Session [port] t
              else Session (ports s ++ [port]) (start_time s)
  end.

(** The points of an execution of the loop at which the dict can be
    observed: at the start, after each socket of the [for] loop, after each
    clean-up.  [ok] restricts what [accept] may return. *)
Inductive reachable (sequence : list Z) (window_seconds : Q)
    (protected_port : Z) (ok : accept_result → Prop) (sockets : list Z)
    : gmap string session → Prop :=
  | reachable_start :
      reachable sequence window_seconds protected_port ok sockets ∅
  | reachable_poll ka port a :
      reachable sequence window_seconds protected_port ok sockets ka →
      port ∈ sockets → ok a →
      reachable sequence window_seconds protected_port ok sockets
        (poll_socket sequence window_seconds protected_port ka port a).1
  | reachable_cleanup ka t :
      reachable sequence window_seconds protected_port ok sockets ka →
      reachable sequence window_seconds protected_port ok sockets
        (cleanup window_seconds ka t).1.

(** A grant for [ip], a logged knock from [ip]. *)
Definition is_grant_to (ip : string) (e : effect) : bool :=
  match e with
  | Iptables (InsertAccept _ a) => bool_decide (a = ip)
  | _ => false
  end.
Definition is_knock_from (ip : string) (e : effect) : bool :=
  match e with
  | Log _ (MsgKnock a _) => bool_decide (a = ip)
  | _ => false
  end.

(** How many effects pass a test. *)
Definition count_effects (f : effect → bool) (effs : list effect) : nat :=
  length (List.filter f effs).

(** What an entry counts towards the next grant: its ports, as long as it
    is shorter than the sequence. *)
Definition progress (n : nat) (o : option session) : nat :=
  match o with
  | Some s => if (length (ports s) <? n)%nat then length (ports s) else 0
  | None => 0
  end.

(** Lines 64-86: what [listen_for_knocks] logs before the loop. *)
Definition startup_trace (sequence : list Z) (window_seconds : Q)
    (protected_port : Z) (binds : list bool) : list effect :=
  [Log INFO (MsgListeningFor sequence);
   Log INFO (MsgProtectedPort protected_port);
   Log INFO (MsgWindow window_seconds)]
  ++ (create_listeners sequence binds).2 ++ [Log INFO MsgReady].

(** The log line of a port that could not be bound (line 83). *)
Definition is_bind_failure (e : effect) : bool :=
  match e with Log ERROR (MsgBindFailed _) => true | _ => false end.

(** A character of the ASCII range. *)
Definition is_ascii (c : ascii) : bool := (nat_of_ascii c <? 128)%nat.

(** Whether every character of a string passes a test. *)
Fixpoint all_chars (f : ascii → bool) (s : string) : bool :=
  match s with
  | EmptyString => true
  | String c s' => f c && all_chars f s'
  end.

(** What distinguishes the characters [str] writes for a number. *)
Definition number_char (c : ascii) : bool :=
  negb (py_isspace c) && negb (Ascii.eqb c ",") && negb (Ascii.eqb c "+").

(** How often a character occurs in a string. *)
Fixpoint count_char (c : ascii) (s : string) : nat :=
  match s with
  | EmptyString => O
  | String c' s' => (if Ascii.eqb c' c then 1 else 0) + count_char c s'
  end.

(** ** Example runs *)

(** The knocks [1234, 5678, 9012] of one address, the grant raising an
    exception that [open_protected_port] does not catch. *)
Definition knocks_with_raising_grant (ip : string) : list iteration :=
  [ Iteration [Accepted ip 1 RunOk] 1;
    Iteration [AcceptTimeout; Accepted ip 2 RunOk] 2;
    Iteration [AcceptTimeout; AcceptTimeout; Accepted ip 3 RunOtherError] 3 ].

(** One connection of an address in an iteration of the loop: it arrives
    on the socket of index [socket] at time [t]; [sweep] is the time of
    the clean-up of that iteration and [run] what [iptables] does if it is
    run. *)
Definition knock_on (ip : string) (ev : nat * Q * Q * run_result)
    : iteration :=
  let '(socket, t, sweep, run) := ev in
  Iteration (replicate socket AcceptTimeout ++ [Accepted ip t run]) sweep.

(** Two addresses taking turns, as in
    [A:1234, B:1234, A:5678, B:5678, A:9012, B:9012]: in the round of index
    [k] the address [A] connects to the socket of index [k], then [B] does,
    each in an iteration of its own.  A round gives for each of the two
    connections its time, the time of the sweep of its iteration and what
    [iptables] does if it is run. *)
Fixpoint interleaved (A B : string) (k : nat)
    (rounds : list ((Q * Q * run_result) * (Q * Q * run_result)))
    : list iteration :=
  match rounds with
  | [] => []
  | ((tA, sweepA, runA), (tB, sweepB, runB)) :: rounds' =>
      knock_on A (k, tA, sweepA, runA) :: knock_on B (k, tB, sweepB, runB)
        :: interleaved A B (S k) rounds'
  end.

(** The four times of a round. *)
Definition round_times (r : (Q * Q * run_result) * (Q * Q * run_result))
    : list Q :=
  let '((tA, sweepA, _), (tB, sweepB, _)) := r in [tA; sweepA; tB; sweepB].

(** The rounds of [A:1234, B:1234, A:5678, B:5678, A:9012, B:9012] at the
    times 1 to 6, each sweep at the time of its knock. *)
Definition six_knocks : list ((Q * Q * run_result) * (Q * Q * run_result)) :=
  [((1%Q, 1%Q, RunOk), (2%Q, 2%Q, RunOk));
   ((3%Q, 3%Q, RunOk), (4%Q, 4%Q, RunOk));
   ((5%Q, 5%Q, RunOk), (6%Q, 6%Q, RunOk))].

(** Three knocks on the sockets 0, 1 and 2 at times 1, 5 and 11, the
    sweeps of their iterations at times 1, 6 and 30. *)
Definition three_knocks_in_time : list (nat * Q * Q * run_result) :=
  [(0%nat, 1%Q, 1%Q, RunOk); (1%nat, 5%Q, 6%Q, RunOk);
   (2%nat, 11%Q, 30%Q, RunOk)].

(** The entry of an address whose knocks so far, the first of them at
    time [t0], were on the ports [knocked]. *)
Definition entry_after (knocked : list Z) (t0 : Q) : option session :=
  match knocked with
  | [] => None
  | _ :: _ => Some (Session knocked t0)
  end.

(** * Properties *)

(** ** Time stamps *)

Lemma expired_spec (w t : Q) (s : session) :
  expired w t s = true ↔ (w < t - start_time s)%Q.
Proof.
  unfold expired, Qgtb. rewrite negb_true_iff.
  split.
  - intros H. apply Qnot_le_lt. intros Hle.
    apply Qle_bool_iff in Hle. congruence.
  - intros H. destruct (Qle_bool (t - start_time s) w) eqn:E; [|done].
    apply Qle_bool_iff in E. exfalso. eapply Qlt_not_le; eauto.
Qed.

Lemma not_expired_spec (w t : Q) (s : session) :
  expired w t s = false ↔ ¬ (w < t - start_time s)%Q.
Proof.
  rewrite <- expired_spec. destruct (expired w t s); split; congruence.
Qed.

(** ** Recording a knock (lines 98-115) *)

Lemma record_knock_store w (ka : gmap string session) ip port t :
  (record_knock w ka ip port t).1 = <[ip := advance w t port (ka !! ip)]> ka.
Proof.
  unfold record_knock, advance.
  destruct (ka !! ip) as [s|] eqn:E.
  - rewrite E. by destruct (expired w t s).
  - rewrite lookup_insert_eq.
    destruct (expired w t (Session [] t)); simpl; by rewrite insert_insert_eq.
Qed.

Lemma record_knock_lookup w (ka : gmap string session) ip port t :
  (record_knock w ka ip port t).1 !! ip = Some (advance w t port (ka !! ip)).
Proof. by rewrite record_knock_store, lookup_insert_eq. Qed.

Lemma record_knock_other w (ka : gmap string session) ip port t ip' :
  ip ≠ ip' → (record_knock w ka ip port t).1 !! ip' = ka !! ip'.
Proof. intros. by rewrite record_knock_store, lookup_insert_ne. Qed.

Lemma record_knock_quiet w (ka : gmap string session) ip port t :
  Forall (λ e, is_gateway_call e = false ∧ is_rejection e = false
               ∧ is_knock e = false)
         (record_knock w ka ip port t).2.
Proof.
  unfold record_knock.
  destruct (ka !! ip) as [s|] eqn:E.
  - rewrite E. destruct (expired w t s); simpl; repeat constructor.
  - rewrite lookup_insert_eq.
    destruct (expired w t (Session [] t)); simpl; repeat constructor.
Qed.

(** ** The gateway calls of a run *)

Lemma gateway_calls_app (l1 l2 : list effect) :
  gateway_calls (l1 ++ l2) = gateway_calls l1 ++ gateway_calls l2.
Proof.
  induction l1 as [|[r|lvl m] l1 IH]; simpl; [done| |done].
  by rewrite IH.
Qed.

Lemma gateway_calls_quiet (l : list effect) :
  Forall (λ e, is_gateway_call e = false) l ↔ gateway_calls l = [].
Proof.
  induction l as [|[r|lvl m] l IH]; simpl.
  - split; [done|constructor].
  - split; [|done]. intros H. by inversion H.
  - rewrite <- IH. split.
    + intros H. by inversion H.
    + intros H. by constructor.
Qed.

Lemma open_protected_port_calls pp ip run :
  gateway_calls (open_protected_port pp ip run).1 = [InsertAccept pp ip].
Proof. by destruct run. Qed.

(** ** The completion check (lines 117-131) *)

Section Check.

Variable sequence : list Z.
Variable protected_port : Z.
Implicit Types (ka : gmap string session) (ip : string) (s : session).

Lemma check_sequence_short ka ip s run :
  ka !! ip = Some s → length (ports s) ≠ length sequence →
  check_sequence sequence protected_port ka ip run
  = (ka, [Log INFO (MsgProgress ip (ports s))], Returned).
Proof.
  intros Hs Hlen. unfold check_sequence. rewrite Hs.
  by rewrite bool_decide_eq_false_2.
Qed.

Lemma check_sequence_mismatch ka ip s run :
  ka !! ip = Some s → length (ports s) = length sequence →
  ports s ≠ sequence →
  check_sequence sequence protected_port ka ip run
  = (delete ip ka,
     [Log INFO (MsgProgress ip (ports s));
      Log WARNING (MsgIncorrect ip (ports s));
      Log INFO (MsgExpected sequence)], Returned).
Proof.
  intros Hs Hlen Hne. unfold check_sequence. rewrite Hs.
  rewrite bool_decide_eq_true_2 by done.
  by rewrite bool_decide_eq_false_2.
Qed.

Lemma check_sequence_match ka ip s run :
  ka !! ip = Some s → ports s = sequence →
  check_sequence sequence protected_port ka ip run
  = (if handled run then delete ip ka else ka,
     [Log INFO (MsgProgress ip sequence); Log INFO (MsgCorrect ip);
      Log INFO (MsgOpening protected_port ip)]
     ++ (open_protected_port protected_port ip run).1,
     if handled run then Returned else Raised).
Proof.
  intros Hs Heq. unfold check_sequence. rewrite Hs, Heq.
  rewrite !bool_decide_eq_true_2 by done.
  by destruct run.
Qed.

Lemma check_sequence_other ka ip run ip' :
  ip ≠ ip' →
  (check_sequence sequence protected_port ka ip run).1.1 !! ip' = ka !! ip'.
Proof.
  intros Hne. unfold check_sequence.
  destruct (ka !! ip) as [s|]; [|done].
  repeat case_bool_decide; try destruct run; simpl;
    by rewrite ?lookup_delete_ne.
Qed.

End Check.

(** ** One knock (lines 92-131) *)

Section Step.

Variable sequence : list Z.
Variable window_seconds : Q.
Variable protected_port : Z.
Implicit Types (ka : gmap string session) (ip : string) (s : session).

Lemma process_knock_unfold ka port ip t run :
  process_knock sequence window_seconds protected_port ka port ip t run
  = let r := record_knock window_seconds ka ip port t in
    let c := check_sequence sequence protected_port r.1 ip run in
    (c.1.1, Log INFO (MsgKnock ip port) :: r.2 ++ c.1.2, c.2).
Proof.
  unfold process_knock.
  destruct (record_knock window_seconds ka ip port t) as [r effs1]; simpl.
  by destruct (check_sequence sequence protected_port r ip run) as [[c effs2] o].
Qed.

Local Abbreviation record_knock := (record_knock window_seconds).
Local Abbreviation check_sequence := (check_sequence sequence protected_port).
Local Abbreviation process_knock :=
  (process_knock sequence window_seconds protected_port).
Local Abbreviation advance := (advance window_seconds).

(** Fewer ports than the sequence has: the entry stays as recorded. *)
Lemma process_knock_short ka port ip t run :
  length (ports (advance t port (ka !! ip))) ≠ length sequence →
  process_knock ka port ip t run
  = (<[ip := advance t port (ka !! ip)]> ka,
     Log INFO (MsgKnock ip port) :: (record_knock ka ip port t).2
       ++ [Log INFO (MsgProgress ip (ports (advance t port (ka !! ip))))],
     Returned).
Proof.
  intros Hlen. rewrite process_knock_unfold. simpl.
  rewrite (check_sequence_short _ _ _ _ _ _ (record_knock_lookup _ _ _ _ _) Hlen).
  simpl. by rewrite record_knock_store.
Qed.

(** As many ports as the sequence has, but not the sequence: rejected. *)
Lemma process_knock_mismatch ka port ip t run :
  length (ports (advance t port (ka !! ip))) = length sequence →
  ports (advance t port (ka !! ip)) ≠ sequence →
  process_knock ka port ip t run
  = (delete ip ka,
     Log INFO (MsgKnock ip port) :: (record_knock ka ip port t).2
       ++ [Log INFO (MsgProgress ip (ports (advance t port (ka !! ip))));
           Log WARNING (MsgIncorrect ip (ports (advance t port (ka !! ip))));
           Log INFO (MsgExpected sequence)],
     Returned).
Proof.
  intros Hlen Hne. rewrite process_knock_unfold. simpl.
  rewrite (check_sequence_mismatch _ _ _ _ _ _
             (record_knock_lookup _ _ _ _ _) Hlen Hne).
  simpl. by rewrite record_knock_store, delete_insert_eq.
Qed.

(** The sequence itself: the port is opened, and the entry is deleted when
    [open_protected_port] returns. *)
Lemma process_knock_match ka port ip t run :
  ports (advance t port (ka !! ip)) = sequence →
  process_knock ka port ip t run
  = (if handled run then delete ip ka
     else <[ip := advance t port (ka !! ip)]> ka,
     Log INFO (MsgKnock ip port) :: (record_knock ka ip port t).2
       ++ [Log INFO (MsgProgress ip sequence); Log INFO (MsgCorrect ip);
           Log INFO (MsgOpening protected_port ip)]
       ++ (open_protected_port protected_port ip run).1,
     if handled run then Returned else Raised).
Proof.
  intros Heq. rewrite process_knock_unfold. simpl.
  rewrite (check_sequence_match _ _ _ _ _ _
             (record_knock_lookup _ _ _ _ _) Heq).
  simpl. rewrite record_knock_store.
  destruct (handled run); by rewrite ?delete_insert_eq.
Qed.

(** The three cases cover every knock. *)
Lemma process_knock_cases ka port ip t :
  let s := advance t port (ka !! ip) in
  length (ports s) ≠ length sequence
  ∨ (length (ports s) = length sequence ∧ ports s ≠ sequence)
  ∨ ports s = sequence.
Proof.
  intros s.
  destruct (decide (ports s = sequence)) as [->|]; [by right; right|].
  destruct (decide (length (ports s) = length sequence)); [right|]; by left.
Qed.

(** A knock from [ip] leaves the entry of every other address alone. *)
Lemma process_knock_other ka port ip t run ip' :
  ip ≠ ip' → (process_knock ka port ip t run).1.1 !! ip' = ka !! ip'.
Proof.
  intros Hne. rewrite process_knock_unfold. simpl.
  by rewrite check_sequence_other, record_knock_other.
Qed.

(** The gateway is called once, to open the port for [ip], exactly when the
    recorded ports are the sequence; this holds whatever [iptables] does. *)
Lemma process_knock_gateway_calls ka port ip t run :
  gateway_calls (process_knock ka port ip t run).1.2
  = if bool_decide (ports (advance t port (ka !! ip)) = sequence)
    then [InsertAccept protected_port ip] else [].
Proof.
  pose proof (record_knock_quiet window_seconds ka ip port t) as Hq.
  assert (gateway_calls (record_knock ka ip port t).2 = []) as Hr.
  { apply gateway_calls_quiet. eapply Forall_impl; [exact Hq|]. by intros e [? _]. }
  destruct (process_knock_cases ka port ip t) as [H|[[H1 H2]|H]].
  - rewrite process_knock_short by done. simpl.
    rewrite gateway_calls_app, Hr. simpl.
    rewrite bool_decide_eq_false_2; [done|]. congruence.
  - rewrite process_knock_mismatch by done. simpl.
    rewrite gateway_calls_app, Hr. simpl.
    by rewrite bool_decide_eq_false_2.
  - rewrite process_knock_match by done. simpl.
    rewrite gateway_calls_app, Hr. simpl.
    rewrite open_protected_port_calls. by rewrite bool_decide_eq_true_2.
Qed.

(** When the count reaches the length of the sequence and
    [open_protected_port] returns, the entry is gone after the knock. *)
Lemma process_knock_resolves ka port ip t run :
  length (ports (advance t port (ka !! ip))) = length sequence →
  handled run = true →
  (process_knock ka port ip t run).1.1 !! ip = None
  ∧ (process_knock ka port ip t run).2 = Returned.
Proof.
  intros Hlen Hrun.
  destruct (decide (ports (advance t port (ka !! ip)) = sequence)) as [E|E].
  - rewrite process_knock_match by done. rewrite Hrun. simpl.
    by rewrite lookup_delete_eq.
  - rewrite process_knock_mismatch by done. simpl.
    by rewrite lookup_delete_eq.
Qed.

(** Where an entry found after a knock comes from: it was there before, or
    it is the entry just recorded for the knocking address, kept because it
    is still short or because [open_protected_port] raised. *)
Lemma process_knock_lookup ka port ip t run ip' s' :
  (process_knock ka port ip t run).1.1 !! ip' = Some s' →
  (ip' ≠ ip ∧ ka !! ip' = Some s')
  ∨ (ip' = ip ∧ s' = advance t port (ka !! ip)
     ∧ (length (ports s') ≠ length sequence
        ∨ (ports s' = sequence ∧ handled run = false))).
Proof.
  destruct (decide (ip = ip')) as [<-|Hne].
  2: { rewrite process_knock_other by done. left. split; [congruence|done]. }
  destruct (process_knock_cases ka port ip t) as [H|[[H1 H2]|H]].
  - rewrite process_knock_short by done. simpl. rewrite lookup_insert_eq.
    intros [= <-]. right. by repeat split; [left].
  - rewrite process_knock_mismatch by done. simpl.
    by rewrite lookup_delete_eq.
  - rewrite process_knock_match by done. simpl.
    destruct (handled run) eqn:Hrun.
    + by rewrite lookup_delete_eq.
    + rewrite lookup_insert_eq. intros [= <-]. right. by repeat split; [right].
Qed.

End Step.

(** ** The clean-up (lines 138-146) *)

Section Cleanup.

Variable window_seconds : Q.
Implicit Types (ka : gmap string session) (ip : string) (s : session).

Lemma elem_of_expired_ips ka t ip :
  ip ∈ expired_ips window_seconds ka t
  ↔ ∃ s, ka !! ip = Some s ∧ expired window_seconds t s = true.
Proof.
  unfold expired_ips. rewrite list_elem_of_bind. split.
  - intros [[ip' s] [Hin Hm]]. apply elem_of_map_to_list in Hm.
    destruct (expired window_seconds t s) eqn:E.
    + apply list_elem_of_singleton in Hin as ->. eauto.
    + by apply not_elem_of_nil in Hin.
  - intros [s [Hs E]]. exists (ip, s). rewrite E.
    split; [by apply list_elem_of_singleton|by apply elem_of_map_to_list].
Qed.

Lemma delete_expired_lookup ka ips ip :
  (delete_expired ka ips).1 !! ip
  = if decide (ip ∈ ips) then None else ka !! ip.
Proof.
  revert ka. induction ips as [|ip0 ips IH]; intros ka.
  - done.
  - simpl. specialize (IH (delete ip0 ka)).
    destruct (delete_expired (delete ip0 ka) ips) as [ka' effs]; simpl in *.
    rewrite IH. destruct (decide (ip = ip0)) as [->|Hne].
    + rewrite lookup_delete_eq.
      rewrite (decide_True (P := ip0 ∈ ip0 :: ips)) by apply list_elem_of_here.
      by case_decide.
    + rewrite lookup_delete_ne by done.
      destruct (decide (ip ∈ ips)) as [Hin|Hin].
      * by rewrite decide_True by by apply list_elem_of_further.
      * rewrite decide_False; [done|].
        rewrite elem_of_cons. by intros [?|?].
Qed.

Lemma delete_expired_effects ka ips :
  (delete_expired ka ips).2 = map (λ ip, Log INFO (MsgCleanup ip)) ips.
Proof.
  revert ka. induction ips as [|ip0 ips IH]; intros ka; simpl; [done|].
  specialize (IH (delete ip0 ka)).
  destruct (delete_expired (delete ip0 ka) ips) as [ka' effs]; simpl in *.
  by rewrite IH.
Qed.

(** The clean-up keeps exactly the entries that are not older than the
    window. *)
Lemma cleanup_lookup ka t ip :
  (cleanup window_seconds ka t).1 !! ip
  = match ka !! ip with
    | Some s => if expired window_seconds t s then None else Some s
    | None => None
    end.
Proof.
  unfold cleanup. rewrite delete_expired_lookup.
  destruct (decide (ip ∈ expired_ips window_seconds ka t)) as [Hin|Hin].
  - apply elem_of_expired_ips in Hin as [s [-> ->]]. done.
  - destruct (ka !! ip) as [s|] eqn:Hs; [|done].
    destruct (expired window_seconds t s) eqn:E; [|done].
    exfalso. apply Hin, elem_of_expired_ips. eauto.
Qed.

Lemma cleanup_quiet ka t :
  Forall (λ e, is_gateway_call e = false) (cleanup window_seconds ka t).2.
Proof.
  unfold cleanup. rewrite delete_expired_effects.
  apply Forall_forall. intros e Hin. apply list_elem_of_In in Hin.
  apply in_map_iff in Hin as [ip [<- _]]. done.
Qed.

Lemma cleanup_lookup_Some ka t ip s :
  (cleanup window_seconds ka t).1 !! ip = Some s → ka !! ip = Some s.
Proof.
  rewrite cleanup_lookup. destruct (ka !! ip) as [s0|]; [|done].
  by destruct (expired window_seconds t s0).
Qed.

End Cleanup.

(** ** The listening loop (lines 88-148) *)

Section Loop.

Variable sequence : list Z.
Variable window_seconds : Q.
Variable protected_port : Z.
Implicit Types (ka : gmap string session) (ip : string) (s : session).

Local Abbreviation process_knock :=
  (process_knock sequence window_seconds protected_port).
Local Abbreviation poll_socket :=
  (poll_socket sequence window_seconds protected_port).
Local Abbreviation poll_sockets :=
  (poll_sockets sequence window_seconds protected_port).
Local Abbreviation cleanup := (cleanup window_seconds).
Local Abbreviation advance := (advance window_seconds).
Local Abbreviation reachable :=
  (reachable sequence window_seconds protected_port).

Lemma poll_socket_accepted ka port ip t run :
  poll_socket ka port (Accepted ip t run)
  = ((process_knock ka port ip t run).1.1,
     (process_knock ka port ip t run).1.2
       ++ if handled run
             && bool_decide (ports (advance t port (ka !! ip)) = sequence)
             || negb (bool_decide (ports (advance t port (ka !! ip)) = sequence))
          then [] else [Log ERROR MsgError]).
Proof.
  simpl.
  destruct (process_knock_cases sequence window_seconds ka port ip t)
    as [H|[[H1 H2]|H]].
  - rewrite process_knock_short by done. simpl.
    rewrite bool_decide_eq_false_2 by congruence.
    by rewrite andb_false_r, app_nil_r.
  - rewrite process_knock_mismatch by done. simpl.
    rewrite bool_decide_eq_false_2 by done.
    by rewrite andb_false_r, app_nil_r.
  - rewrite process_knock_match by done. simpl.
    rewrite bool_decide_eq_true_2 by done.
    destruct (handled run); simpl; by rewrite ?app_nil_r.
Qed.

Lemma poll_socket_lookup ka port a ip' s' :
  (poll_socket ka port a).1 !! ip' = Some s' →
  ka !! ip' = Some s'
  ∨ ∃ ip t run, a = Accepted ip t run ∧ ip' = ip
      ∧ s' = advance t port (ka !! ip)
      ∧ (length (ports s') ≠ length sequence
         ∨ (ports s' = sequence ∧ handled run = false)).
Proof.
  destruct a as [| |ip t run]; [by left..|].
  rewrite poll_socket_accepted. simpl. intros H.
  apply process_knock_lookup in H as [[_ H]|(-> & H1 & H2)]; [by left|].
  right. by exists ip, t, run.
Qed.

Lemma poll_socket_gateway_calls ka port a :
  gateway_calls (poll_socket ka port a).2
  = match a with
    | Accepted ip t run =>
        if bool_decide (ports (advance t port (ka !! ip)) = sequence)
        then [InsertAccept protected_port ip] else []
    | _ => []
    end.
Proof.
  destruct a as [| |ip t run]; [done..|].
  rewrite poll_socket_accepted. simpl.
  rewrite gateway_calls_app, process_knock_gateway_calls.
  match goal with |- _ ++ gateway_calls (if ?b then _ else _) = _ =>
    destruct b end; simpl; by rewrite app_nil_r.
Qed.

(** Every socket of the [for] loop is one step. *)
Lemma poll_sockets_reachable ok sockets ka socks accs :
  ok AcceptTimeout →
  reachable ok sockets ka →
  (∀ p, p ∈ socks → p ∈ sockets) →
  Forall ok accs →
  reachable ok sockets (poll_sockets ka socks accs).1.
Proof.
  intros Hidle. revert ka accs.
  induction socks as [|p socks IH]; intros ka accs Hr Hsub Hok; [done|].
  simpl.
  destruct (poll_socket ka p (hd AcceptTimeout accs)) as [ka1 effs1] eqn:E1.
  specialize (IH ka1 (tl accs)).
  destruct (poll_sockets ka1 socks (tl accs)) as [ka2 effs2]. simpl in *.
  apply IH.
  - replace ka1 with (poll_socket ka p (hd AcceptTimeout accs)).1
      by by rewrite E1.
    apply reachable_poll; [done|apply Hsub; left|].
    destruct Hok; simpl; done.
  - intros q Hq. apply Hsub. by right.
  - destruct Hok; simpl; [constructor|done].
Qed.

Lemma loop_iteration_reachable ok sockets st it :
  ok AcceptTimeout →
  reachable ok sockets (knock_attempts st) →
  Forall ok (accepts it) →
  reachable ok sockets
    (knock_attempts
       (loop_iteration sequence window_seconds protected_port sockets st it)).
Proof.
  intros Hidle Hr Hok. unfold loop_iteration.
  pose proof (poll_sockets_reachable ok sockets (knock_attempts st) sockets
                (accepts it) Hidle Hr (λ _ H, H) Hok) as H.
  destruct (poll_sockets (knock_attempts st) sockets (accepts it))
    as [ka effs]. simpl in H.
  pose proof (reachable_cleanup _ _ _ ok sockets ka (sweep_time it) H) as H'.
  by destruct (cleanup ka (sweep_time it)) as [ka' effs'].
Qed.

Lemma fold_loop_reachable ok sockets its st :
  ok AcceptTimeout →
  reachable ok sockets (knock_attempts st) →
  Forall (λ it, Forall ok (accepts it)) its →
  reachable ok sockets
    (knock_attempts
       (fold_left
          (loop_iteration sequence window_seconds protected_port sockets)
          its st)).
Proof.
  intros Hidle. revert st.
  induction its as [|it its IH]; intros st Hr Hok; [done|].
  simpl. inversion Hok; subst.
  apply IH; [|done]. by apply loop_iteration_reachable.
Qed.

(** The dict of [listen_for_knocks] is reachable after any number of
    iterations. *)
Lemma listen_for_knocks_reachable ok binds its :
  ok AcceptTimeout →
  Forall (λ it, Forall ok (accepts it)) its →
  reachable ok (create_listeners sequence binds).1
    (knock_attempts
       (listen_for_knocks sequence window_seconds protected_port binds its)).
Proof.
  intros Hidle Hok. unfold listen_for_knocks.
  destruct (create_listeners sequence binds) as [sockets effs]. simpl.
  apply fold_loop_reachable; [done| |done]. apply reachable_start.
Qed.

End Loop.

(** Sockets are only ever bound to ports of the sequence. *)
Lemma create_listeners_subset (ports : list Z) (binds : list bool) (p : Z) :
  p ∈ (create_listeners ports binds).1 → p ∈ ports.
Proof.
  revert binds. induction ports as [|q ports IH]; intros binds; [done|].
  simpl. specialize (IH (tl binds)).
  destruct (create_listeners ports (tl binds)) as [sockets effs].
  destruct (hd true binds); simpl in *.
  - rewrite !elem_of_cons. intros [->|H]; [by left|right; auto].
  - intros H. right. auto.
Qed.

(** ** Invariants of the dict *)

Section Invariants.

Variable sequence : list Z.
Variable window_seconds : Q.
Variable protected_port : Z.
Variable sockets : list Z.
Implicit Types (ka : gmap string session) (ip : string) (s : session).

Local Abbreviation reachable :=
  (reachable sequence window_seconds protected_port).

(** The ports of a recorded entry: those it had, and the new one. *)
Lemma advance_ports t port (o : option session) p :
  p ∈ ports (advance window_seconds t port o) →
  p = port ∨ ∃ s, o = Some s ∧ p ∈ ports s.
Proof.
  unfold advance. destruct o as [s|]; simpl.
  - destruct (expired window_seconds t s); simpl.
    + rewrite list_elem_of_singleton. by left.
    + rewrite elem_of_app, list_elem_of_singleton. intros [?|?]; eauto.
  - rewrite list_elem_of_singleton. by left.
Qed.

(** Every recorded port is the port of a bound socket. *)
Lemma reachable_ports_bound ok ka ip s p :
  reachable ok sockets ka → ka !! ip = Some s → p ∈ ports s → p ∈ sockets.
Proof.
  intros Hr. revert ip s p.
  induction Hr as [|ka port a _ IH Hp Ha|ka t _ IH]; intros ip s p Hs Hin.
  - by rewrite lookup_empty in Hs.
  - apply poll_socket_lookup in Hs
      as [Hs|(ip0 & t & run & -> & -> & -> & _)]; [by eapply IH|].
    apply advance_ports in Hin as [->|(s0 & Hs0 & Hin)]; [done|by eapply IH].
  - apply cleanup_lookup_Some in Hs. by eapply IH.
Qed.

(** The same between lines 115 and 117, before the completion check. *)
Lemma recorded_ports_bound ok ka ip port t ip' s p :
  reachable ok sockets ka → port ∈ sockets →
  (record_knock window_seconds ka ip port t).1 !! ip' = Some s →
  p ∈ ports s → p ∈ sockets.
Proof.
  intros Hr Hport. rewrite record_knock_store.
  destruct (decide (ip = ip')) as [<-|Hne].
  - rewrite lookup_insert_eq. intros [= <-] Hin.
    apply advance_ports in Hin as [->|(s0 & Hs0 & Hin)]; [done|].
    by eapply reachable_ports_bound.
  - rewrite lookup_insert_ne by done. by apply (reachable_ports_bound ok).
Qed.

(** As long as no exception escapes [open_protected_port], every entry is
    shorter than the sequence. *)
Lemma reachable_lengths ka ip s :
  (∀ p, p ∈ sockets → p ∈ sequence) →
  reachable handled_accept sockets ka → ka !! ip = Some s →
  (length (ports s) < length sequence)%nat.
Proof.
  intros Hsub Hr. revert ip s.
  induction Hr as [|ka port a _ IH Hp Ha|ka t _ IH]; intros ip s Hs.
  - by rewrite lookup_empty in Hs.
  - apply poll_socket_lookup in Hs
      as [Hs|(ip0 & t & run & -> & -> & -> & Hkeep)]; [by eapply IH|].
    simpl in Ha. destruct Hkeep as [Hkeep|[_ Hkeep]]; [|congruence].
    assert (1 ≤ length sequence)%nat as Hpos.
    { apply Hsub in Hp. destruct sequence; [by apply elem_of_nil in Hp|].
      simpl. lia. }
    revert Hkeep. unfold advance. destruct (ka !! ip0) as [s0|] eqn:E0.
    + destruct (expired window_seconds t s0); simpl; [lia|].
      rewrite length_app. simpl. specialize (IH _ _ E0). lia.
    + simpl. lia.
  - apply cleanup_lookup_Some in Hs. by eapply IH.
Qed.

End Invariants.

(** ** The start-up order *)

Lemma main_trace_shape (args : arguments) (w : world) :
  (main args w).2 = []
  ∨ ∃ rest, (main args w).2
            = Log INFO MsgInitFirewall
              :: deny_by_default (arg_protected_port args) :: rest.
Proof.
  unfold main. destruct (parse_sequence (arg_sequence args)); [|by left].
  right. destruct (close_run w); simpl; eauto.
Qed.

Lemma main_listening_trace (args : arguments) (w : world) ka :
  (main args w).1 = Listening ka →
  ∃ rest, (main args w).2
          = Log INFO MsgInitFirewall
            :: deny_by_default (arg_protected_port args) :: rest.
Proof.
  intros H. destruct (main_trace_shape args w) as [E|E]; [|done].
  revert H E. unfold main.
  destruct (parse_sequence (arg_sequence args)); [|done].
  by destruct (close_run w).
Qed.

(** ** The [--sequence] option *)

Lemma split_nonempty (sep : ascii) (s : string) : split sep s ≠ [].
Proof.
  destruct s as [|c s]; simpl; [done|].
  destruct (Ascii.eqb c sep); [done|]. by destruct (split sep s).
Qed.


Lemma parse_sequence_nonempty (s : string) (l : list Z) :
  parse_sequence s = Some l → l ≠ [].
Proof.
  unfold parse_sequence. intros H%mapM_Some Hl. subst l.
  apply Forall2_nil_inv_r in H. by apply split_nonempty in H.
Qed.

(** * The claims *)

(** C3. For every knock [(ip, port, t)]: if [knock_attempts] has no entry
    for [ip], or the entry's age [t - start_time] exceeds the window, then
    the entry that lines 98-115 record for [ip] is exactly
    [{'ports': [port], 'start_time': t}]: no port of the expired entry is
    carried over.  That entry is the one the completion check of the same
    knock looks at; it is what the dict holds after the knock unless the
    sequence has length one, in which case the check resolves it at once. *)
Theorem fresh_session_on_new_or_expired
    (sequence : list Z) (window_seconds : Q) (protected_port : Z)
    (ka : gmap string session) (ip : string) (port : Z) (t : Q) :
  (ka !! ip = None
   ∨ ∃ s, ka !! ip = Some s ∧ (window_seconds < t - start_time s)%Q) →
  (record_knock window_seconds ka ip port t).1 !! ip = Some (Session [port] t)
  ∧ (∀ run, length sequence ≠ 1%nat →
       (process_knock sequence window_seconds protected_port
          ka port ip t run).1.1 !! ip = Some (Session [port] t)).
Proof.
  intros Hfresh.
  assert (advance window_seconds t port (ka !! ip) = Session [port] t) as Hadv.
  { destruct Hfresh as [->|(s & -> & Hage)]; [done|].
    simpl. apply expired_spec in Hage. by rewrite Hage. }
  split.
  - by rewrite record_knock_lookup, Hadv.
  - intros run Hlen. rewrite process_knock_short.
    + simpl. by rewrite lookup_insert_eq, Hadv.
    + rewrite Hadv. simpl. congruence.
Qed.

Lemma expired_entry_restarts_example :
  let ka : gmap string session := {[ "198.51.100.4" := Session [1234; 5678] 0 ]} in
  (record_knock 10 ka "198.51.100.4" 9012 11).1 !! "198.51.100.4"
  = Some (Session [9012] 11)
  ∧ (∀ run, length [1234; 5678; 9012] ≠ 1%nat →
       (process_knock [1234; 5678; 9012] 10 2222
          ka 9012 "198.51.100.4" 11 run).1.1 !! "198.51.100.4"
       = Some (Session [9012] 11)).
Proof.
  intros ka.
  apply (fresh_session_on_new_or_expired [1234; 5678; 9012] 10 2222
           ka "198.51.100.4" 9012 11).
  right. exists (Session [1234; 5678] 0). split; reflexivity.
Defined.

(** C4. A knock whose port makes the recorded ports deviate from the
    expected prefix of the sequence is not rejected as long as the entry,
    after the append, is shorter than the sequence: the entry stays in the
    dict as recorded, nothing is logged as incorrect and the gateway is not
    called.  A rejection is only ever logged when the recorded count equals
    the length of the sequence. *)
Theorem deviation_is_not_rejected_early
    (sequence : list Z) (window_seconds : Q) (protected_port : Z)
    (ka : gmap string session) (ip : string) (port : Z) (t : Q)
    (run : run_result) (s' : session) :
  (record_knock window_seconds ka ip port t).1 !! ip = Some s' →
  let r := process_knock sequence window_seconds protected_port
             ka port ip t run in
  (¬ ports s' `prefix_of` sequence →
   (length (ports s') < length sequence)%nat →
   r.1.1 !! ip = Some s' ∧ r.2 = Returned
   ∧ Forall (λ e, is_rejection e = false ∧ is_gateway_call e = false) r.1.2)
  ∧ (Exists (λ e, is_rejection e = true) r.1.2 →
     length (ports s') = length sequence).
Proof.
  rewrite record_knock_lookup. intros [= <-] r. subst r. split.
  - intros _ Hlen. rewrite process_knock_short by lia. simpl.
    rewrite lookup_insert_eq. repeat split.
    constructor; [done|]. apply Forall_app. split.
    + eapply Forall_impl; [apply record_knock_quiet|]. by intros e (?&?&?).
    + by repeat constructor.
  - destruct (process_knock_cases sequence window_seconds ka port ip t)
      as [H|[[H1 H2]|H]]; [|done|by rewrite H].
    rewrite process_knock_short by done. simpl. intros Hex. exfalso.
    apply Exists_cons in Hex as [Hex|Hex]; [done|].
    apply Exists_app in Hex as [Hex|Hex].
    + apply Exists_exists in Hex as (e & Hin & He).
      pose proof (record_knock_quiet window_seconds ka ip port t) as Hq.
      rewrite Forall_forall in Hq. destruct (Hq e Hin) as (_ & Hrej & _).
      congruence.
    + apply Exists_cons in Hex as [Hex|Hex]; [done|].
      by apply Exists_nil in Hex.
Qed.

Lemma wrong_prefix_kept_example :
  let ka : gmap string session := {[ "198.51.100.4" := Session [9012] 0 ]} in
  let r := process_knock [1234; 5678; 9012] 10 2222
             ka 1234 "198.51.100.4" 1 RunOk in
  r.1.1 !! "198.51.100.4" = Some (Session [9012; 1234] 0) ∧ r.2 = Returned
  ∧ Forall (λ e, is_rejection e = false ∧ is_gateway_call e = false) r.1.2.
Proof.
  intros ka r.
  refine (proj1 (deviation_is_not_rejected_early [1234; 5678; 9012] 10 2222
                   ka "198.51.100.4" 1234 1 RunOk (Session [9012; 1234] 0) _)
            _ _).
  - reflexivity.
  - intros [k Hk]. discriminate Hk.
  - simpl. lia.
Defined.

(** C5. A sweep at time [t] removes every entry whose age
    [t - start_time] exceeds the window, leaves every other entry as it
    is, adds none, and never calls the gateway. *)
Theorem cleanup_removes_exactly_the_expired
    (window_seconds : Q) (ka : gmap string session) (t : Q) :
  (∀ ip s, ka !! ip = Some s → (window_seconds < t - start_time s)%Q →
           (cleanup window_seconds ka t).1 !! ip = None)
  ∧ (∀ ip s, ka !! ip = Some s → ¬ (window_seconds < t - start_time s)%Q →
             (cleanup window_seconds ka t).1 !! ip = Some s)
  ∧ (∀ ip, ka !! ip = None → (cleanup window_seconds ka t).1 !! ip = None)
  ∧ gateway_calls (cleanup window_seconds ka t).2 = [].
Proof.
  repeat split.
  - intros ip s Hs Hage. rewrite cleanup_lookup, Hs.
    apply expired_spec in Hage. by rewrite Hage.
  - intros ip s Hs Hage. rewrite cleanup_lookup, Hs.
    apply not_expired_spec in Hage. by rewrite Hage.
  - intros ip Hs. by rewrite cleanup_lookup, Hs.
  - apply gateway_calls_quiet, cleanup_quiet.
Qed.

Lemma sweep_example :
  let ka : gmap string session :=
    {[ "198.51.100.4" := Session [1234] 0; "198.51.100.9" := Session [1234] 5 ]} in
  (cleanup 10 ka 12).1 !! "198.51.100.4" = None
  ∧ (cleanup 10 ka 12).1 !! "198.51.100.9" = Some (Session [1234] 5).
Proof.
  intros ka.
  destruct (cleanup_removes_exactly_the_expired 10 ka 12) as (Hgone & Hkept & _).
  split.
  - apply (Hgone "198.51.100.4" (Session [1234] 0)); reflexivity.
  - apply (Hkept "198.51.100.9" (Session [1234] 5)); [reflexivity|].
    intros H. discriminate H.
Defined.

(** C7. In every run of [main], [deny_by_default(protected_port)] is
    invoked before any knock is processed and before any grant: every
    processed knock and every grant in the trace comes after it, and a
    run that reaches the listening loop has invoked it. *)
Theorem deny_by_default_comes_first (args : arguments) (w : world) :
  (∀ pre e post,
     (main args w).2 = pre ++ e :: post →
     is_knock e = true ∨ is_grant e = true →
     deny_by_default (arg_protected_port args) ∈ pre)
  ∧ (∀ ka, (main args w).1 = Listening ka →
           deny_by_default (arg_protected_port args) ∈ (main args w).2).
Proof.
  split.
  - intros pre e post Htrace He.
    destruct (main_trace_shape args w) as [E|[rest E]]; rewrite E in Htrace.
    { by destruct pre. }
    destruct pre as [|e0 [|e1 pre]]; simplify_eq/=.
    + by destruct He.
    + by destruct He.
    + apply list_elem_of_further, list_elem_of_here.
  - intros ka [rest ->]%main_listening_trace.
    apply list_elem_of_further, list_elem_of_here.
Qed.

Lemma startup_order_example :
  let args := Namespace "1234" 2222 10 in
  let w := World RunOk [] [Iteration [Accepted "192.0.2.1" 1 RunOk] 1] in
  deny_by_default 2222
  ∈ [Log INFO MsgInitFirewall; deny_by_default 2222;
     Log INFO (MsgClosed 2222); Log INFO (MsgListeningFor [1234]);
     Log INFO (MsgProtectedPort 2222); Log INFO (MsgWindow 10);
     Log INFO (MsgListening 1234); Log INFO MsgReady].
Proof.
  intros args w.
  refine (proj1 (deny_by_default_comes_first args w) _
            (Log INFO (MsgKnock "192.0.2.1" 1234)) _ _ _).
  - vm_compute. reflexivity.
  - left. reflexivity.
Defined.



(** C10. At every point of an execution, every port recorded in an entry
    of [knock_attempts] is a port of the knock sequence: a knock is only
    ever recorded with the port of a socket of the loop, and sockets are
    only bound to ports of the sequence.  Stated for the dict after any
    number of iterations, for every point of the loop between two sockets
    or clean-ups, and between the recording of a knock and its check. *)
Theorem recorded_ports_are_knock_ports
    (sequence : list Z) (window_seconds : Q) (protected_port : Z)
    (binds : list bool) :
  let sockets := (create_listeners sequence binds).1 in
  (∀ its ip s p,
     knock_attempts
       (listen_for_knocks sequence window_seconds protected_port binds its)
       !! ip = Some s →
     p ∈ ports s → p ∈ sequence)
  ∧ (∀ ka ip s p,
       reachable sequence window_seconds protected_port any_accept sockets ka →
       ka !! ip = Some s → p ∈ ports s → p ∈ sequence)
  ∧ (∀ ka port ip t ip' s p,
       reachable sequence window_seconds protected_port any_accept sockets ka →
       port ∈ sockets →
       (record_knock window_seconds ka ip port t).1 !! ip' = Some s →
       p ∈ ports s → p ∈ sequence).
Proof.
  intros sockets.
  assert (∀ ka ip s p,
     reachable sequence window_seconds protected_port any_accept sockets ka →
     ka !! ip = Some s → p ∈ ports s → p ∈ sequence) as Hreach.
  { intros ka ip s p Hr Hs Hp.
    eapply create_listeners_subset, reachable_ports_bound; eauto. }
  repeat split.
  - intros its ip s p Hs Hp. eapply Hreach; [|exact Hs|exact Hp].
    apply listen_for_knocks_reachable; [done|].
    apply Forall_forall. intros it _. by apply Forall_forall.
  - exact Hreach.
  - intros ka port ip t ip' s p Hr Hport Hs Hp.
    eapply create_listeners_subset, recorded_ports_bound; eauto.
Qed.

Lemma recorded_ports_example :
  (5678 : Z) ∈ [1234; 5678; 9012].
Proof.
  refine (proj1 (recorded_ports_are_knock_ports [1234; 5678; 9012] 10 2222 [])
            [Iteration [AcceptTimeout; Accepted "192.0.2.1" 1 RunOk] 1;
             Iteration [Accepted "192.0.2.1" 2 RunOk] 2]
            "192.0.2.1" (Session [5678; 1234] 1) 5678 _ _).
  - vm_compute. reflexivity.
  - apply list_elem_of_here.
Defined.

(** ** Completed sessions and the gateway *)

(** When no exception escapes [open_protected_port], no entry of the dict
    ever reaches the length of the sequence, after any number of
    iterations. *)
Lemma listen_for_knocks_lengths
    (sequence : list Z) (window_seconds : Q) (protected_port : Z)
    (binds : list bool) (its : list iteration) (ip : string) (s : session) :
  Forall (λ it, Forall handled_accept (accepts it)) its →
  knock_attempts
    (listen_for_knocks sequence window_seconds protected_port binds its)
    !! ip = Some s →
  (length (ports s) < length sequence)%nat.
Proof.
  intros Hok Hs.
  eapply reachable_lengths; [|by apply listen_for_knocks_reachable|exact Hs].
  apply create_listeners_subset.
Qed.

(** A failure of [iptables] that [open_protected_port] handles
    ([CalledProcessError], [FileNotFoundError]) is logged, the gateway is
    called once and the entry of the address is deleted all the same. *)
Lemma handled_gateway_failure_destroys_session
    (sequence : list Z) (window_seconds : Q) (protected_port : Z)
    (ka : gmap string session) (ip : string) (port : Z) (t : Q)
    (run : run_result) :
  run = RunCalledProcessError ∨ run = RunFileNotFoundError →
  ports (advance window_seconds t port (ka !! ip)) = sequence →
  let r := process_knock sequence window_seconds protected_port
             ka port ip t run in
  r.1.1 !! ip = None ∧ r.2 = Returned
  ∧ gateway_calls r.1.2 = [InsertAccept protected_port ip]
  ∧ Exists (λ e, is_report e = true) r.1.2.
Proof.
  intros Hrun Hseq r. subst r.
  rewrite process_knock_gateway_calls, bool_decide_eq_true_2 by done.
  rewrite process_knock_match by done.
  destruct Hrun as [-> | ->]; simpl; rewrite lookup_delete_eq;
    repeat split; apply Exists_exists; eexists;
    (split; [apply list_elem_of_further, elem_of_app; right;
             do 4 apply list_elem_of_further; apply list_elem_of_here
            |done]).
Qed.

(** When the recorded count reaches the length of the sequence, the
    gateway is called once for the address exactly when the recorded ports
    are the sequence, and the entry is gone after the knock if
    [open_protected_port] returns. *)
Lemma completed_session_is_resolved
    (sequence : list Z) (window_seconds : Q) (protected_port : Z)
    (ka : gmap string session) (ip : string) (port : Z) (t : Q)
    (run : run_result) (s' : session) :
  (record_knock window_seconds ka ip port t).1 !! ip = Some s' →
  length (ports s') = length sequence →
  let r := process_knock sequence window_seconds protected_port
             ka port ip t run in
  gateway_calls r.1.2
  = (if bool_decide (ports s' = sequence)
     then [InsertAccept protected_port ip] else [])
  ∧ (handled run = true → r.1.1 !! ip = None ∧ r.2 = Returned).
Proof.
  rewrite record_knock_lookup. intros [= <-] Hlen r. subst r. split.
  - apply process_knock_gateway_calls.
  - intros Hrun. by apply process_knock_resolves.
Qed.

(** A dict has one entry per key. *)
Lemma one_entry_per_address (ka : gmap string session) :
  NoDup (map_to_list ka).*1.
Proof. apply NoDup_fst_map_to_list. Qed.

(** C1. The third knock of a correct sequence, when [subprocess.run]
    raises an exception that [open_protected_port] does not catch: the
    gateway is called once, and the completed entry is still in the dict
    after the knock. *)
Theorem raising_grant_keeps_the_completed_session :
  let ka : gmap string session :=
    {[ "203.0.113.7" := Session [1234; 5678] 0 ]} in
  let r := process_knock [1234; 5678; 9012] 10 2222
             ka 9012 "203.0.113.7" 2 RunOtherError in
  gateway_calls r.1.2 = [InsertAccept 2222 "203.0.113.7"]
  ∧ r.2 = Raised
  ∧ r.1.1 !! "203.0.113.7" = Some (Session [1234; 5678; 9012] 0).
Proof. vm_compute. done. Qed.

(** C2. After a correct sequence whose grant raises an exception that
    [open_protected_port] does not catch, the entry is retained at full
    length, and one more knock within the window makes it longer than the
    sequence. *)
Theorem raising_grant_lets_an_entry_outgrow_the_sequence :
  let sequence : list Z := [1234; 5678; 9012] in
  let st := listen_for_knocks sequence 10 2222 []
              (knocks_with_raising_grant "203.0.113.7"
               ++ [Iteration [Accepted "203.0.113.7" 4 RunOk] 4]) in
  ∃ s, knock_attempts st !! "203.0.113.7" = Some s
       ∧ s = Session [1234; 5678; 9012; 1234] 1
       ∧ (length sequence < length (ports s))%nat.
Proof.
  eexists. split; [vm_compute; reflexivity|]. split; [done|]. simpl. lia.
Qed.

(** C9. A correct sequence whose grant fails with an exception that
    [open_protected_port] does not catch: the failure is logged by the
    handler of the loop (line 136) and the gateway was called once, but the
    entry of the address is not destroyed. *)
Theorem unhandled_gateway_failure_keeps_the_session :
  let st := listen_for_knocks [1234; 5678; 9012] 10 2222 []
              (knocks_with_raising_grant "203.0.113.7") in
  knock_attempts st !! "203.0.113.7" = Some (Session [1234; 5678; 9012] 1)
  ∧ gateway_calls (trace st) = [InsertAccept 2222 "203.0.113.7"]
  ∧ last (trace st) = Some (Log ERROR MsgError).
Proof. vm_compute. done. Qed.

(** * Further properties *)

(** ** Strings *)

Lemma append_cons (a : ascii) (s t : string) :
  (String a s ++ t)%string = String a (s ++ t)%string.
Proof. reflexivity. Qed.

Lemma append_empty_l (s : string) : ("" ++ s)%string = s.
Proof. reflexivity. Qed.

Lemma rev_app_rev_app (s1 s2 s3 : string) :
  String.rev_app (String.rev_app s1 s2) s3
  = String.rev_app s2 (s1 ++ s3)%string.
Proof.
  revert s2 s3. induction s1 as [|a s1 IH]; intros s2 s3; simpl; [done|].
  by rewrite IH, append_cons.
Qed.

Lemma append_empty_r (s : string) : (s ++ "")%string = s.
Proof. induction s as [|a s IH]; [done|]. by rewrite append_cons, IH. Qed.

Lemma rev_rev (s : string) : String.rev (String.rev s) = s.
Proof.
  unfold String.rev. rewrite rev_app_rev_app. simpl. apply append_empty_r.
Qed.

Lemma all_chars_rev_app f (s1 s2 : string) :
  all_chars f (String.rev_app s1 s2) = all_chars f s1 && all_chars f s2.
Proof.
  revert s2. induction s1 as [|a s1 IH]; intros s2; simpl; [done|].
  rewrite IH. simpl. by destruct (f a), (all_chars f s1).
Qed.

Lemma all_chars_impl (f g : ascii → bool) (s : string) :
  (∀ c, f c = true → g c = true) → all_chars f s = true → all_chars g s = true.
Proof.
  intros Hfg. induction s as [|a s IH]; simpl; [done|].
  rewrite !andb_true_iff. intros [? ?]. auto.
Qed.

Lemma lstrip_no_space (s : string) :
  all_chars (λ c, negb (py_isspace c)) s = true → lstrip s = s.
Proof.
  destruct s as [|a s]; simpl; [done|].
  rewrite andb_true_iff, negb_true_iff. by intros [-> _].
Qed.

Lemma rstrip_no_space (s : string) :
  all_chars (λ c, negb (py_isspace c)) s = true → rstrip s = s.
Proof.
  intros H. unfold rstrip. rewrite lstrip_no_space.
  - apply rev_rev.
  - unfold String.rev. by rewrite all_chars_rev_app, H.
Qed.

(** ** Splitting and joining *)

Lemma split_no_sep (sep : ascii) (s : string) :
  all_chars (λ c, negb (Ascii.eqb c sep)) s = true → split sep s = [s].
Proof.
  induction s as [|a s IH]; simpl; [done|].
  rewrite andb_true_iff, negb_true_iff. intros [-> H]. by rewrite IH.
Qed.

Lemma split_app_sep (sep : ascii) (s rest : string) :
  all_chars (λ c, negb (Ascii.eqb c sep)) s = true →
  split sep (s ++ String sep rest)%string = s :: split sep rest.
Proof.
  induction s as [|a s IH].
  - intros _. simpl. by rewrite Ascii.eqb_refl.
  - simpl. rewrite andb_true_iff, negb_true_iff. intros [Ha H].
    rewrite ?append_cons. simpl. by rewrite Ha, IH.
Qed.

Lemma split_concat (sep : ascii) (fields : list string) :
  fields ≠ [] →
  Forall (λ s, all_chars (λ c, negb (Ascii.eqb c sep)) s = true) fields →
  split sep (String.concat (String sep "") fields) = fields.
Proof.
  intros Hne Hall. induction Hall as [|s fields Hs Hall IH]; [done|].
  destruct fields as [|s' fields]; simpl.
  - by apply split_no_sep.
  - rewrite append_cons, append_empty_l.
    rewrite split_app_sep by done. f_equal. by apply IH.
Qed.

Lemma length_split (sep : ascii) (s : string) :
  length (split sep s) = S (count_char sep s).
Proof.
  induction s as [|a s IH]; simpl; [done|].
  destruct (Ascii.eqb a sep); simpl; [by rewrite IH|].
  destruct (split sep s); simpl in *; lia.
Qed.

(** ** Printing and parsing integers *)

Lemma digit_value_digit_char (d : Z) :
  (0 ≤ d < 10)%Z → digit_value (digit_char d) = Some d.
Proof.
  intros Hd.
  assert (d = 0 ∨ d = 1 ∨ d = 2 ∨ d = 3 ∨ d = 4 ∨ d = 5 ∨ d = 6 ∨ d = 7
          ∨ d = 8 ∨ d = 9) as Hcases by lia.
  repeat destruct Hcases as [->|Hcases]; try reflexivity. by subst.
Qed.

Lemma number_char_digit (d : Z) :
  (0 ≤ d < 10)%Z →
  number_char (digit_char d) = true ∧ Ascii.eqb (digit_char d) "-" = false.
Proof.
  intros Hd.
  assert (d = 0 ∨ d = 1 ∨ d = 2 ∨ d = 3 ∨ d = 4 ∨ d = 5 ∨ d = 6 ∨ d = 7
          ∨ d = 8 ∨ d = 9) as Hcases by lia.
  repeat destruct Hcases as [->|Hcases]; try (by split). by subst.
Qed.

Lemma str_digits_chars f (fuel : nat) (n : Z) (acc : string) :
  (∀ d, (0 ≤ d < 10)%Z → f (digit_char d) = true) →
  (0 ≤ n)%Z → all_chars f acc = true →
  all_chars f (str_digits fuel n acc) = true.
Proof.
  intros Hf. revert n acc. induction fuel as [|fuel IH]; intros n acc Hn Hacc.
  - done.
  - simpl.
    assert (all_chars f (String (digit_char (n mod 10)) acc) = true) as H.
    { simpl. rewrite Hacc, Hf; [done|]. apply Z.mod_pos_bound. lia. }
    destruct (n <? 10)%Z; [done|]. apply IH; [|done]. apply Z.div_pos; lia.
Qed.

(** Reading back the digits of [n]: they shift what was read before and
    add [n]. *)
Lemma parse_str_digits (fuel : nat) (n : Z) (acc : string) :
  (0 ≤ n < 2 ^ Z.of_nat (S fuel))%Z →
  ∃ k, ∀ a b, parse_digits a b (str_digits (S fuel) n acc)
              = parse_digits (a * 10 ^ Z.of_nat k + n)%Z true acc.
Proof.
  revert n acc. induction fuel as [|fuel IH]; intros n acc Hn.
  - exists 1%nat. intros a b. cbn [str_digits].
    assert (n < 2)%Z as Hn2 by (destruct Hn as [_ Hn]; exact Hn).
    assert ((n <? 10)%Z = true) as -> by (apply Z.ltb_lt; lia).
    cbn [parse_digits]. rewrite Z.mod_small by lia.
    rewrite digit_value_digit_char by lia. f_equal. lia.
  - remember (S fuel) as fuel' eqn:Hfuel.
    cbn [str_digits]. destruct (n <? 10)%Z eqn:Hsmall.
    + exists 1%nat. intros a b. apply Z.ltb_lt in Hsmall.
      cbn [parse_digits]. rewrite Z.mod_small by lia.
      rewrite digit_value_digit_char by lia. f_equal. lia.
    + apply Z.ltb_ge in Hsmall.
      destruct (IH (n / 10) (String (digit_char (n mod 10)) acc)) as [k Hk].
      { split; [apply Z.div_pos; lia|].
        apply Z.div_lt_upper_bound; [lia|].
        rewrite Hfuel, Nat2Z.inj_succ, Z.pow_succ_r in Hn by lia.
        rewrite Hfuel. lia. }
      exists (S k). intros a b. subst fuel'. rewrite Hk.
      cbn [parse_digits].
      rewrite digit_value_digit_char by (apply Z.mod_pos_bound; lia).
      f_equal. rewrite Nat2Z.inj_succ, Z.pow_succ_r by lia.
      pose proof (Z.div_mod n 10). lia.
Qed.

Lemma log2_fuel (n : Z) :
  (0 ≤ n)%Z → (n < 2 ^ Z.of_nat (S (Z.to_nat (Z.log2 n))))%Z.
Proof.
  intros Hn. rewrite Nat2Z.inj_succ, Z2Nat.id by apply Z.log2_nonneg.
  destruct (decide (n = 0)) as [->|Hne]; [done|].
  apply Z.log2_spec. lia.
Qed.

Lemma parse_digits_str_digits (n : Z) :
  (0 ≤ n)%Z →
  parse_digits 0 false (str_digits (S (Z.to_nat (Z.log2 n))) n "") = Some n.
Proof.
  intros Hn.
  destruct (parse_str_digits (Z.to_nat (Z.log2 n)) n "") as [k Hk].
  { split; [done|by apply log2_fuel]. }
  rewrite Hk. simpl. f_equal; lia.
Qed.

Lemma str_digits_head (fuel : nat) (n : Z) (acc : string) :
  (0 ≤ n)%Z →
  ∃ d rest, (0 ≤ d < 10)%Z ∧ str_digits (S fuel) n acc = String (digit_char d) rest.
Proof.
  revert n acc. induction fuel as [|fuel IH]; intros n acc Hn.
  - simpl. destruct (n <? 10)%Z; eexists _, _; split; try done;
      apply Z.mod_pos_bound; lia.
  - remember (S fuel) as fuel'. cbn [str_digits].
    destruct (n <? 10)%Z.
    + eexists _, _; split; [|done]. apply Z.mod_pos_bound; lia.
    + subst fuel'. apply IH. apply Z.div_pos; lia.
Qed.

(** The decimal text of [z] denotes [z]. *)
Lemma int_literal_str_int (z : Z) : int_literal (str_int z) = Some z.
Proof.
  assert (∀ n, (0 ≤ n)%Z →
            all_chars number_char (str_digits (S (Z.to_nat (Z.log2 n))) n "")
            = true) as Hchars.
  { intros n Hn. apply str_digits_chars; [|done..].
    intros d Hd. by apply number_char_digit. }
  assert (∀ s, all_chars number_char s = true →
               all_chars (λ c, negb (py_isspace c)) s = true) as Hspace.
  { intros s. apply all_chars_impl. intros c. unfold number_char.
    rewrite !andb_true_iff. tauto. }
  unfold str_int, int_literal. destruct (z <? 0)%Z eqn:Hz.
  - apply Z.ltb_lt in Hz.
    assert (all_chars (λ c, negb (py_isspace c))
              (String "-" (str_digits (S (Z.to_nat (Z.log2 (- z)))) (- z) ""))
            = true) as Hs.
    { simpl. apply Hspace, Hchars. lia. }
    rewrite lstrip_no_space, rstrip_no_space by done.
    rewrite parse_digits_str_digits by lia. simpl. f_equal. lia.
  - apply Z.ltb_ge in Hz.
    rewrite lstrip_no_space, rstrip_no_space by (apply Hspace, Hchars; lia).
    destruct (str_digits_head (Z.to_nat (Z.log2 z)) z "" Hz)
      as (d & rest & Hd & Hhead).
    pose proof (parse_digits_str_digits z Hz) as Hparse.
    rewrite Hhead in *.
    destruct (number_char_digit d Hd) as [Hnum Hminus].
    unfold number_char in Hnum. rewrite !andb_true_iff, !negb_true_iff in Hnum.
    destruct Hnum as [[_ _] Hplus].
    destruct (digit_char d) as [b0 b1 b2 b3 b4 b5 b6 b7] eqn:Hc.
    destruct b0, b1, b2, b3, b4, b5, b6, b7; try exact Hparse;
      simpl in Hplus, Hminus; discriminate.
Qed.

Lemma str_int_no_comma (z : Z) :
  all_chars (λ c, negb (Ascii.eqb c ",")) (str_int z) = true.
Proof.
  assert (∀ n, (0 ≤ n)%Z →
            all_chars (λ c, negb (Ascii.eqb c ","))
              (str_digits (S (Z.to_nat (Z.log2 n))) n "") = true) as Hchars.
  { intros n Hn. apply str_digits_chars; [|done..].
    intros d Hd. destruct (number_char_digit d Hd) as [Hnum _].
    unfold number_char in Hnum. rewrite !andb_true_iff in Hnum. tauto. }
  unfold str_int. destruct (z <? 0)%Z eqn:Hz.
  - apply Z.ltb_lt in Hz. simpl. apply Hchars. lia.
  - apply Z.ltb_ge in Hz. by apply Hchars.
Qed.

(** *** The limit on the number of digits *)

Lemma count_digits_digit (d : Z) (s : string) :
  (0 ≤ d < 10)%Z → count_digits (String (digit_char d) s) = S (count_digits s).
Proof. intros Hd. cbn [count_digits]. by rewrite digit_value_digit_char. Qed.

(** A number below [10 ^ k] is written with at most [k] digits. *)
Lemma count_digits_str_digits (fuel : nat) :
  ∀ (n : Z) (acc : string) (k : nat),
    (0 ≤ n < 10 ^ Z.of_nat k)%Z → (1 ≤ k)%nat →
    (count_digits (str_digits fuel n acc) ≤ k + count_digits acc)%nat.
Proof.
  induction fuel as [|fuel IH]; intros n acc k Hn Hk; [simpl; lia|].
  cbn [str_digits]. destruct (n <? 10)%Z eqn:Hsmall.
  - rewrite count_digits_digit by (apply Z.mod_pos_bound; lia). lia.
  - apply Z.ltb_ge in Hsmall.
    destruct k as [|[|k]]; [lia| |].
    + change (10 ^ Z.of_nat 1)%Z with 10%Z in Hn. lia.
    + etrans.
      * apply (IH (n / 10)%Z _ (S k)); [|lia].
        split; [apply Z.div_pos; lia|].
        apply Z.div_lt_upper_bound; [lia|].
        rewrite (Nat2Z.inj_succ (S k)), Z.pow_succ_r in Hn by lia. lia.
      * rewrite count_digits_digit by (apply Z.mod_pos_bound; lia). lia.
Qed.

Lemma count_digits_str_int (z : Z) (k : nat) :
  (Z.abs z < 10 ^ Z.of_nat k)%Z → (1 ≤ k)%nat →
  (count_digits (str_int z) ≤ k)%nat.
Proof.
  intros Hz Hk. unfold str_int. destruct (z <? 0)%Z eqn:E.
  - apply Z.ltb_lt in E. simpl.
    pose proof (count_digits_str_digits (S (Z.to_nat (Z.log2 (- z))))
                  (- z) "" k) as H.
    simpl in H. rewrite Nat.add_0_r in H. apply H; lia.
  - apply Z.ltb_ge in E.
    pose proof (count_digits_str_digits (S (Z.to_nat (Z.log2 z))) z "" k)
      as H.
    simpl in H. rewrite Nat.add_0_r in H. apply H; lia.
Qed.

(** [str] writes every number of at most [INT_MAX_STR_DIGITS] digits. *)
Lemma py_str_bounded (z : Z) :
  (Z.abs z < 10 ^ INT_MAX_STR_DIGITS)%Z → py_str z = Some (str_int z).
Proof.
  intros Hz. unfold py_str.
  assert (count_digits (str_int z) ≤ Z.to_nat INT_MAX_STR_DIGITS)%nat as Hle.
  { apply count_digits_str_int; [by rewrite Z2Nat.id|].
    change 1%nat with (Z.to_nat 1). by apply Z2Nat.inj_le. }
  clear Hz. apply Nat2Z.inj_le in Hle. rewrite Z2Nat.id in Hle by done.
  by rewrite (proj2 (Z.ltb_ge _ _)).
Qed.

(** Numbers of at most nine digits are far below the limit. *)
Lemma below_digit_limit (z : Z) :
  (Z.abs z < 10 ^ 9)%Z → (Z.abs z < 10 ^ INT_MAX_STR_DIGITS)%Z.
Proof.
  intros H. eapply Z.lt_trans; [exact H|].
  apply Z.pow_lt_mono_r; [lia|done|reflexivity].
Qed.

Lemma py_str_Some (z : Z) (s : string) :
  py_str z = Some s →
  s = str_int z ∧ (Z.of_nat (count_digits s) ≤ INT_MAX_STR_DIGITS)%Z.
Proof.
  unfold py_str.
  destruct (INT_MAX_STR_DIGITS <? _)%Z eqn:E; [done|].
  apply Z.ltb_ge in E. by intros [= <-].
Qed.

Lemma py_int_Some (s : string) (z : Z) :
  py_int s = Some z → int_literal s = Some z.
Proof. unfold py_int. by destruct (INT_MAX_STR_DIGITS <? _)%Z. Qed.

Lemma py_int_not_literal (s : string) : int_literal s = None → py_int s = None.
Proof. unfold py_int. by destruct (INT_MAX_STR_DIGITS <? _)%Z. Qed.

(** [int(str(z)) == z], whenever [str(z)] is written. *)
Lemma py_int_py_str (z : Z) (s : string) : py_str z = Some s → py_int s = Some z.
Proof.
  intros [-> Hlen]%py_str_Some. unfold py_int.
  rewrite (proj2 (Z.ltb_ge _ _)) by done. apply int_literal_str_int.
Qed.

Lemma py_str_no_comma (z : Z) (s : string) :
  py_str z = Some s → all_chars (λ c, negb (Ascii.eqb c ",")) s = true.
Proof. intros [-> _]%py_str_Some. apply str_int_no_comma. Qed.

Lemma sequence_option_parses (ports : list Z) (text : string) :
  sequence_option ports = Some text → ports ≠ [] →
  parse_sequence text = Some ports.
Proof.
  unfold sequence_option, parse_sequence. intros Htext Hne.
  destruct (mapM py_str ports) as [texts|] eqn:Htexts; [|done].
  injection Htext as <-. apply mapM_Some in Htexts.
  rewrite split_concat.
  - apply mapM_Some. apply Forall2_flip.
    eapply Forall2_impl; [exact Htexts|]. intros p t. apply py_int_py_str.
  - intros ->. apply Forall2_nil_inv_r in Htexts. done.
  - clear Hne. induction Htexts as [|p t ports texts Hp _ IH]; constructor.
    + by eapply py_str_no_comma.
    + done.
Qed.

(** X1. The text that [parse_args] builds for a list of ports
    ([",".join(str(port) ...)]) is read back by [main] as the same list,
    for every non-empty list that [str] can write; [str] writes every list
    of integers of at most 4300 digits.  For the empty list the text is
    empty and does not parse. *)
Theorem sequence_option_round_trip (ports : list Z) :
  (Forall (λ p, (Z.abs p < 10 ^ INT_MAX_STR_DIGITS)%Z) ports →
   ports ≠ [] →
   ∃ text, sequence_option ports = Some text
           ∧ parse_sequence text = Some ports)
  ∧ (∀ text, sequence_option ports = Some text → ports ≠ [] →
             parse_sequence text = Some ports)
  ∧ (sequence_option [] = Some "" ∧ parse_sequence "" = None).
Proof.
  split; [|split; [apply sequence_option_parses|done]].
  intros Hbound Hne.
  assert (mapM py_str ports = Some (map str_int ports)) as Htexts.
  { apply mapM_Some, Forall2_fmap_r, Forall_Forall2_diag.
    eapply Forall_impl; [exact Hbound|]. intros p. apply py_str_bounded. }
  exists (String.concat "," (map str_int ports)).
  assert (sequence_option ports
          = Some (String.concat "," (map str_int ports))) as Htext.
  { unfold sequence_option. by rewrite Htexts. }
  split; [done|]. by apply sequence_option_parses.
Qed.

Lemma default_sequence_example :
  ∃ text, sequence_option DEFAULT_KNOCK_SEQUENCE = Some text
          ∧ parse_sequence text = Some DEFAULT_KNOCK_SEQUENCE.
Proof.
  apply (proj1 (sequence_option_round_trip DEFAULT_KNOCK_SEQUENCE)).
  - unfold DEFAULT_KNOCK_SEQUENCE.
    repeat (apply List.Forall_cons; [by apply below_digit_limit|]).
    apply List.Forall_nil.
  - discriminate.
Defined.

(** X2. A sequence that [main] accepts has one port for every
    comma-separated field of the option, one more than it has commas; in
    particular it is never empty. *)
Theorem parsed_sequence_field_count (s : string) (sequence : list Z) :
  parse_sequence s = Some sequence →
  length sequence = S (count_char "," s) ∧ sequence ≠ [].
Proof.
  intros H. assert (length sequence = S (count_char "," s)) as Hlen.
  { unfold parse_sequence in H. apply mapM_Some, Forall2_length in H.
    by rewrite <- H, length_split. }
  split; [done|]. intros ->. simpl in Hlen. lia.
Qed.

Lemma field_count_example :
  length [1234; -5; 70000] = S (count_char "," " 1234,-5,+70_000")
  ∧ [1234; -5; 70000] ≠ [].
Proof.
  apply (parsed_sequence_field_count " 1234,-5,+70_000" [1234; -5; 70000]).
  reflexivity.
Defined.

(** ** Induction over the steps of the loop *)

Section LoopInduction.

Variable sequence : list Z.
Variable window_seconds : Q.
Variable protected_port : Z.
Variable sockets : list Z.
Variable P : gmap string session → list effect → Prop.

Local Abbreviation poll_socket :=
  (poll_socket sequence window_seconds protected_port).
Local Abbreviation poll_sockets :=
  (poll_sockets sequence window_seconds protected_port).
Local Abbreviation cleanup := (cleanup window_seconds).

Hypothesis P_poll : ∀ ka tr port a,
  P ka tr → port ∈ sockets →
  P (poll_socket ka port a).1 (tr ++ (poll_socket ka port a).2).
Hypothesis P_cleanup : ∀ ka tr t,
  P ka tr → P (cleanup ka t).1 (tr ++ (cleanup ka t).2).

Lemma poll_sockets_preserves ka tr socks accs :
  P ka tr → (∀ p, p ∈ socks → p ∈ sockets) →
  P (poll_sockets ka socks accs).1 (tr ++ (poll_sockets ka socks accs).2).
Proof.
  revert ka tr accs.
  induction socks as [|p socks IH]; intros ka tr accs HP Hsub.
  - simpl. by rewrite app_nil_r.
  - simpl.
    pose proof (P_poll ka tr p (hd AcceptTimeout accs) HP
                  (Hsub p (list_elem_of_here _ _))) as H1.
    destruct (poll_socket ka p (hd AcceptTimeout accs)) as [ka1 effs1].
    simpl in H1.
    specialize (IH ka1 (tr ++ effs1) (tl accs) H1
                  (λ q Hq, Hsub q (list_elem_of_further _ _ _ Hq))).
    destruct (poll_sockets ka1 socks (tl accs)) as [ka2 effs2].
    simpl in *. by rewrite app_assoc.
Qed.

Lemma loop_iteration_preserves st it :
  P (knock_attempts st) (trace st) →
  let st' := loop_iteration sequence window_seconds protected_port
               sockets st it in
  P (knock_attempts st') (trace st').
Proof.
  intros HP. unfold loop_iteration.
  pose proof (poll_sockets_preserves (knock_attempts st) (trace st) sockets
                (accepts it) HP (λ _ H, H)) as H1.
  destruct (poll_sockets (knock_attempts st) sockets (accepts it))
    as [ka effs].
  simpl in H1. pose proof (P_cleanup _ _ (sweep_time it) H1) as H2.
  destruct (cleanup ka (sweep_time it)) as [ka' effs']. simpl in *.
  by rewrite app_assoc.
Qed.

Lemma fold_loop_preserves its st :
  P (knock_attempts st) (trace st) →
  let st' := fold_left
               (loop_iteration sequence window_seconds protected_port sockets)
               its st in
  P (knock_attempts st') (trace st').
Proof.
  revert st. induction its as [|it its IH]; intros st HP; [done|].
  simpl. apply IH. by apply loop_iteration_preserves.
Qed.

End LoopInduction.

(** A property of the dict and the trace that holds before the loop and is
    kept by every socket of the loop and by every clean-up holds after any
    number of iterations. *)
Lemma listen_for_knocks_ind
    (sequence : list Z) (window_seconds : Q) (protected_port : Z)
    (binds : list bool) (P : gmap string session → list effect → Prop) :
  P ∅ (startup_trace sequence window_seconds protected_port binds) →
  (∀ ka tr port a,
     P ka tr → port ∈ (create_listeners sequence binds).1 →
     P (poll_socket sequence window_seconds protected_port ka port a).1
       (tr ++ (poll_socket sequence window_seconds protected_port
                 ka port a).2)) →
  (∀ ka tr t,
     P ka tr →
     P (cleanup window_seconds ka t).1 (tr ++ (cleanup window_seconds ka t).2)) →
  ∀ its,
    let st := listen_for_knocks sequence window_seconds protected_port
                binds its in
    P (knock_attempts st) (trace st).
Proof.
  intros Hstart Hpoll Hclean its. unfold listen_for_knocks, startup_trace in *.
  destruct (create_listeners sequence binds) as [sockets effs].
  by apply fold_loop_preserves.
Qed.

(** ** Counting knocks and grants *)

Lemma count_effects_app f (l1 l2 : list effect) :
  count_effects f (l1 ++ l2) = (count_effects f l1 + count_effects f l2)%nat.
Proof. unfold count_effects. by rewrite List.filter_app, length_app. Qed.

Lemma count_effects_none f (l : list effect) :
  Forall (λ e, f e = false) l → count_effects f l = 0%nat.
Proof.
  unfold count_effects. induction 1 as [|e l He _ IH]; simpl; [done|].
  by rewrite He.
Qed.

Lemma create_listeners_logs (ports : list Z) (binds : list bool) :
  Forall (λ e, is_gateway_call e = false ∧ is_knock e = false)
         (create_listeners ports binds).2.
Proof.
  revert binds. induction ports as [|p ports IH]; intros binds; simpl.
  - constructor.
  - specialize (IH (tl binds)).
    destruct (create_listeners ports (tl binds)) as [sockets effs].
    destruct (hd true binds); simpl; by constructor.
Qed.

Lemma startup_trace_logs sequence window_seconds protected_port binds :
  Forall (λ e, is_gateway_call e = false ∧ is_knock e = false)
         (startup_trace sequence window_seconds protected_port binds).
Proof.
  unfold startup_trace. repeat (apply Forall_cons; split; [done|]).
  apply Forall_app. split; [apply create_listeners_logs|].
  by repeat constructor.
Qed.

Lemma is_grant_to_gateway ip e : is_grant_to ip e = true → is_gateway_call e = true.
Proof. by destruct e as [[]|]. Qed.

Lemma is_knock_from_knock ip e : is_knock_from ip e = true → is_knock e = true.
Proof. by destruct e as [|lvl []]. Qed.

Lemma quiet_counts ip (l : list effect) :
  Forall (λ e, is_gateway_call e = false ∧ is_knock e = false) l →
  count_effects (is_grant_to ip) l = 0%nat
  ∧ count_effects (is_knock_from ip) l = 0%nat.
Proof.
  intros H. split; apply count_effects_none; eapply Forall_impl; try exact H;
    intros e [Hg Hk]; simpl.
  - destruct (is_grant_to ip e) eqn:E; [|done].
    apply is_grant_to_gateway in E. congruence.
  - destruct (is_knock_from ip e) eqn:E; [|done].
    apply is_knock_from_knock in E. congruence.
Qed.

Lemma count_effects_cons f (e : effect) (l : list effect) :
  count_effects f (e :: l)
  = ((if f e then 1 else 0) + count_effects f l)%nat.
Proof. unfold count_effects. simpl. by destruct (f e). Qed.

Lemma open_protected_port_counts pp ip run ip0 :
  count_effects (is_knock_from ip0) (open_protected_port pp ip run).1 = 0%nat
  ∧ count_effects (is_grant_to ip0) (open_protected_port pp ip run).1
    = (if bool_decide (ip = ip0) then 1 else 0)%nat.
Proof.
  destruct run; unfold count_effects; simpl; by case_bool_decide.
Qed.

Section Counting.

Variable sequence : list Z.
Variable window_seconds : Q.
Variable protected_port : Z.
Implicit Types (ka : gmap string session) (ip : string) (s : session).

Local Abbreviation process_knock :=
  (process_knock sequence window_seconds protected_port).
Local Abbreviation poll_socket :=
  (poll_socket sequence window_seconds protected_port).

(** Every processed connection logs one knock of its address, and opens
    the port for it once if the recorded ports are the sequence. *)
Lemma process_knock_counts ka port ip t run ip0 :
  count_effects (is_knock_from ip0) (process_knock ka port ip t run).1.2
  = (if bool_decide (ip = ip0) then 1 else 0)%nat
  ∧ count_effects (is_grant_to ip0) (process_knock ka port ip t run).1.2
    = (if bool_decide (ip = ip0)
          && bool_decide (ports (advance window_seconds t port (ka !! ip)) = sequence)
       then 1 else 0)%nat.
Proof.
  assert (count_effects (is_grant_to ip0)
            (record_knock window_seconds ka ip port t).2 = 0%nat
          ∧ count_effects (is_knock_from ip0)
              (record_knock window_seconds ka ip port t).2 = 0%nat)
    as [Hrg Hrk].
  { apply quiet_counts. eapply Forall_impl; [apply record_knock_quiet|].
    by intros e (? & _ & ?). }
  destruct (open_protected_port_counts protected_port ip run ip0) as [Hok Hog].
  destruct (process_knock_cases sequence window_seconds ka port ip t)
    as [H|[[H1 H2]|H]].
  - rewrite process_knock_short by done. simpl.
    rewrite !count_effects_cons, !count_effects_app, Hrg, Hrk. simpl.
    rewrite (bool_decide_eq_false_2 (ports _ = sequence)) by congruence.
    rewrite andb_false_r. split; [|done]. case_bool_decide; done.
  - rewrite process_knock_mismatch by done. simpl.
    rewrite !count_effects_cons, !count_effects_app, Hrg, Hrk. simpl.
    rewrite (bool_decide_eq_false_2 (ports _ = sequence)) by done.
    rewrite andb_false_r. split; [|done]. case_bool_decide; done.
  - rewrite process_knock_match by done. simpl.
    rewrite !count_effects_cons, !count_effects_app, Hrg, Hrk. simpl.
    rewrite !count_effects_cons, Hok, Hog. simpl.
    rewrite (bool_decide_eq_true_2 (ports _ = sequence)) by done.
    rewrite andb_true_r. split; case_bool_decide; done.
Qed.

Lemma poll_socket_counts ka port a ip0 :
  count_effects (is_knock_from ip0) (poll_socket ka port a).2
  = match a with
    | Accepted ip _ _ => if bool_decide (ip = ip0) then 1 else 0
    | _ => 0
    end%nat
  ∧ count_effects (is_grant_to ip0) (poll_socket ka port a).2
    = match a with
      | Accepted ip t _ =>
          if bool_decide (ip = ip0)
             && bool_decide (ports (advance window_seconds t port (ka !! ip)) = sequence)
          then 1 else 0
      | _ => 0
      end%nat.
Proof.
  destruct a as [| |ip t run]; [done..|].
  rewrite poll_socket_accepted. simpl.
  rewrite !count_effects_app.
  destruct (process_knock_counts ka port ip t run ip0) as [-> ->].
  match goal with |- context [count_effects _ (if ?b then _ else _)] =>
    destruct b end; unfold count_effects; simpl; split; lia.
Qed.

(** The entry of the knocking address after the knock. *)
Lemma poll_socket_lookup_same ka port ip t run :
  (poll_socket ka port (Accepted ip t run)).1 !! ip
  = let s' := advance window_seconds t port (ka !! ip) in
    if bool_decide (length (ports s') = length sequence)
    then if bool_decide (ports s' = sequence) && negb (handled run)
         then Some s' else None
    else Some s'.
Proof.
  rewrite poll_socket_accepted. simpl.
  destruct (process_knock_cases sequence window_seconds ka port ip t)
    as [H|[[H1 H2]|H]].
  - rewrite process_knock_short by done. simpl.
    by rewrite lookup_insert_eq, bool_decide_eq_false_2.
  - rewrite process_knock_mismatch by done. simpl.
    rewrite lookup_delete_eq, bool_decide_eq_true_2 by done.
    by rewrite (bool_decide_eq_false_2 (ports _ = sequence)).
  - rewrite process_knock_match by done. simpl.
    rewrite bool_decide_eq_true_2 by by rewrite H.
    rewrite (bool_decide_eq_true_2 (ports _ = sequence)) by done.
    destruct (handled run); simpl;
      by rewrite ?lookup_delete_eq, ?lookup_insert_eq.
Qed.

(** The accounting behind the next theorem: the grants of an address, at
    the price of one sequence each, and the progress of its current entry
    are covered by its knocks. *)
Lemma poll_socket_accounting ka tr port a :
  (∀ ip, (length sequence * count_effects (is_grant_to ip) tr
          + progress (length sequence) (ka !! ip)
          ≤ count_effects (is_knock_from ip) tr)%nat) →
  ∀ ip, (length sequence
           * count_effects (is_grant_to ip) (tr ++ (poll_socket ka port a).2)
         + progress (length sequence) ((poll_socket ka port a).1 !! ip)
         ≤ count_effects (is_knock_from ip)
             (tr ++ (poll_socket ka port a).2))%nat.
Proof.
  intros Hinv ip0. specialize (Hinv ip0).
  rewrite !count_effects_app.
  destruct (poll_socket_counts ka port a ip0) as [-> ->].
  destruct a as [| |ip t run]; [simpl; lia..|].
  destruct (decide (ip = ip0)) as [->|Hne].
  2: { rewrite !bool_decide_eq_false_2 by done.
       rewrite poll_socket_accepted. simpl.
       rewrite process_knock_other by done. lia. }
  rewrite poll_socket_lookup_same. rewrite !bool_decide_eq_true_2 by done.
  cbn zeta. simpl andb.
  set (s' := advance window_seconds t port (ka !! ip0)).
  set (n := length sequence) in *.
  assert (length (ports s') ≤ n →
          length (ports s') ≤ progress n (ka !! ip0) + 1)%nat as Hstep.
  { subst s'. unfold advance, progress.
    destruct (ka !! ip0) as [s|]; simpl; [|lia].
    destruct (expired window_seconds t s); simpl; [lia|].
    rewrite length_app. simpl. intros Hle.
    destruct (length (ports s) <? n)%nat eqn:E; [lia|].
    apply Nat.ltb_ge in E. lia. }
  assert (ports s' = sequence → length (ports s') = n) as Hseq
    by (intros ->; done).
  destruct (decide (length (ports s') = n)) as [Hlen|Hlen].
  - rewrite (bool_decide_eq_true_2 (length (ports s') = n)) by done.
    assert (progress n (if bool_decide (ports s' = sequence)
                           && negb (handled run)
                        then Some s' else None) = 0%nat) as ->.
    { destruct (_ && _); simpl; [|done].
      by rewrite (proj2 (Nat.ltb_ge _ _)) by lia. }
    destruct (bool_decide (ports s' = sequence)); nia.
  - rewrite (bool_decide_eq_false_2 (length (ports s') = n)) by done.
    rewrite (bool_decide_eq_false_2 (ports s' = sequence)) by auto.
    simpl. destruct (length (ports s') <? n)%nat eqn:E; [|lia].
    apply Nat.ltb_lt in E. lia.
Qed.

End Counting.

Lemma cleanup_counts window_seconds (ka : gmap string session) t ip :
  count_effects (is_grant_to ip) (cleanup window_seconds ka t).2 = 0%nat
  ∧ count_effects (is_knock_from ip) (cleanup window_seconds ka t).2 = 0%nat.
Proof.
  apply quiet_counts. unfold cleanup. rewrite delete_expired_effects.
  apply Forall_forall. intros e Hin. apply list_elem_of_In in Hin.
  apply in_map_iff in Hin as [ip' [<- _]]. done.
Qed.

(** X3. After any number of iterations of the loop, the number of times
    the server has opened the port for an address, times the length of the
    sequence, is at most the number of knocks it has logged from that
    address: every grant costs the address a full sequence of knocks. *)
Theorem every_grant_costs_a_full_sequence
    (sequence : list Z) (window_seconds : Q) (protected_port : Z)
    (binds : list bool) (its : list iteration) (ip : string) :
  let st := listen_for_knocks sequence window_seconds protected_port
              binds its in
  (length sequence * count_effects (is_grant_to ip) (trace st)
   ≤ count_effects (is_knock_from ip) (trace st))%nat.
Proof.
  intros st.
  enough (∀ ip, (length sequence * count_effects (is_grant_to ip) (trace st)
                 + progress (length sequence) (knock_attempts st !! ip)
                 ≤ count_effects (is_knock_from ip) (trace st))%nat) as H.
  { specialize (H ip). lia. }
  subst st.
  apply (listen_for_knocks_ind sequence window_seconds protected_port binds
           (λ ka tr, ∀ ip,
              (length sequence * count_effects (is_grant_to ip) tr
               + progress (length sequence) (ka !! ip)
               ≤ count_effects (is_knock_from ip) tr)%nat)).
  - intros ip0. rewrite lookup_empty. simpl.
    destruct (quiet_counts ip0 _
                (startup_trace_logs sequence window_seconds protected_port
                   binds)) as [-> ->]. lia.
  - intros ka tr port a Hinv _. by apply poll_socket_accounting.
  - intros ka tr t Hinv ip0. specialize (Hinv ip0).
    rewrite !count_effects_app.
    destruct (cleanup_counts window_seconds ka t ip0) as [-> ->].
    rewrite cleanup_lookup.
    destruct (ka !! ip0) as [s|]; [|lia].
    destruct (expired window_seconds t s); simpl in *; lia.
Qed.

Lemma listen_for_knocks_gateway_calls
    (sequence : list Z) (window_seconds : Q) (protected_port : Z)
    (binds : list bool) (its : list iteration) :
  Forall (λ r, ∃ ip, r = InsertAccept protected_port ip)
    (gateway_calls
       (trace (listen_for_knocks sequence window_seconds protected_port
                 binds its))).
Proof.
  apply (listen_for_knocks_ind sequence window_seconds protected_port binds
           (λ _ tr, Forall (λ r, ∃ ip, r = InsertAccept protected_port ip)
                      (gateway_calls tr))).
  - replace (gateway_calls _) with (@nil iptables_rule); [constructor|].
    symmetry. apply gateway_calls_quiet.
    eapply Forall_impl; [apply startup_trace_logs|]. by intros e [? _].
  - intros ka tr port a Hinv _.
    rewrite gateway_calls_app, poll_socket_gateway_calls.
    apply Forall_app. split; [done|].
    destruct a as [| |ip t run]; [constructor..|].
    case_bool_decide; repeat constructor. by exists ip.
  - intros ka tr t Hinv. rewrite gateway_calls_app.
    rewrite (proj1 (gateway_calls_quiet _) (cleanup_quiet _ _ _)).
    by rewrite app_nil_r.
Qed.

(** X4. All that a run of [main] ever asks of [iptables].  With an
    ASCII option that is not a valid sequence: nothing.  With a valid
    sequence: one DROP rule for the protected port, first, followed only
    by ACCEPT rules for that same port. *)
Theorem main_gateway_calls (args : arguments) (w : world) :
  (all_chars is_ascii (arg_sequence args) = true →
   parse_sequence (arg_sequence args) = None →
   gateway_calls (main args w).2 = [])
  ∧ (∀ sequence,
       parse_sequence (arg_sequence args) = Some sequence →
       ∃ grants,
         gateway_calls (main args w).2
         = AppendDrop (arg_protected_port args) :: grants
         ∧ Forall (λ r, ∃ ip, r = InsertAccept (arg_protected_port args) ip)
                  grants).
Proof.
  unfold main. split.
  - by intros _ ->.
  - intros sequence ->.
    destruct (close_run w); simpl.
    4: { exists []. by split. }
    all: eexists; split; [reflexivity|].
    all: change (gateway_calls (?l ++ ?r)) with (gateway_calls r).
    all: apply listen_for_knocks_gateway_calls.
Qed.

Lemma main_gateway_calls_example :
  gateway_calls
    (main (Namespace "1234,http" 2222 10)
          (World RunOk [] [Iteration [Accepted "192.0.2.1" 1 RunOk] 1])).2 = []
  ∧ ∃ grants,
      gateway_calls
        (main (Namespace "1234" 2222 10)
              (World RunOk [] [Iteration [Accepted "192.0.2.1" 1 RunOk] 1])).2
      = AppendDrop 2222 :: grants
      ∧ Forall (λ r, ∃ ip, r = InsertAccept 2222 ip) grants.
Proof.
  split.
  - apply (proj1 (main_gateway_calls (Namespace "1234,http" 2222 10)
                    (World RunOk [] [Iteration [Accepted "192.0.2.1" 1 RunOk] 1])));
      reflexivity.
  - apply (proj2 (main_gateway_calls (Namespace "1234" 2222 10)
                    (World RunOk [] [Iteration [Accepted "192.0.2.1" 1 RunOk] 1]))
             [1234]).
    reflexivity.
Defined.

(** ** The clean-up and the knocks *)

Lemma expired_later (w ts t : Q) (s : session) :
  (ts <= t)%Q → expired w ts s = true → expired w t s = true.
Proof.
  rewrite !expired_spec. intros Hle Hlt.
  eapply Qlt_le_trans; [exact Hlt|].
  unfold Qminus. by apply Qplus_le_l.
Qed.

Lemma advance_after_cleanup (w : Q) (ka : gmap string session)
    (ts t : Q) (port : Z) (ip : string) :
  (ts <= t)%Q →
  advance w t port ((cleanup w ka ts).1 !! ip) = advance w t port (ka !! ip).
Proof.
  intros Hle. rewrite cleanup_lookup.
  destruct (ka !! ip) as [s|]; [|done].
  destruct (expired w ts s) eqn:E; [|done].
  simpl. by rewrite (expired_later w ts t s Hle E).
Qed.

Lemma process_knock_outcome sequence w pp (ka : gmap string session)
    port ip t run :
  (process_knock sequence w pp ka port ip t run).2
  = if bool_decide (ports (advance w t port (ka !! ip)) = sequence)
       && negb (handled run)
    then Raised else Returned.
Proof.
  destruct (process_knock_cases sequence w ka port ip t) as [H|[[H1 H2]|H]].
  - rewrite process_knock_short by done.
    by rewrite bool_decide_eq_false_2 by congruence.
  - rewrite process_knock_mismatch by done.
    by rewrite bool_decide_eq_false_2.
  - rewrite process_knock_match by done.
    rewrite bool_decide_eq_true_2 by done. by destruct (handled run).
Qed.

Lemma process_knock_lookup_same sequence w pp (ka : gmap string session)
    port ip t run :
  (process_knock sequence w pp ka port ip t run).1.1 !! ip
  = let s' := advance w t port (ka !! ip) in
    if bool_decide (length (ports s') = length sequence)
    then if bool_decide (ports s' = sequence) && negb (handled run)
         then Some s' else None
    else Some s'.
Proof.
  rewrite <- (poll_socket_lookup_same sequence w pp ka port ip t run).
  by rewrite poll_socket_accepted.
Qed.

(** X5. The sweeper only collects garbage: when the clock does not run
    backwards, a sweep changes nothing of what a later knock does.  After
    a knock at a time [t] not before the sweep, the entry of the knocking
    address, the calls to the gateway and the outcome are the same as if
    the sweep had not happened. *)
Theorem sweep_does_not_change_later_knocks
    (sequence : list Z) (window_seconds : Q) (protected_port : Z)
    (ka : gmap string session) (sweep_time : Q)
    (port : Z) (ip : string) (t : Q) (run : run_result) :
  (sweep_time <= t)%Q →
  let swept := (cleanup window_seconds ka sweep_time).1 in
  let r := process_knock sequence window_seconds protected_port
             ka port ip t run in
  let r' := process_knock sequence window_seconds protected_port
              swept port ip t run in
  r'.1.1 !! ip = r.1.1 !! ip
  ∧ gateway_calls r'.1.2 = gateway_calls r.1.2
  ∧ r'.2 = r.2.
Proof.
  intros Hle swept r r'. subst swept r r'.
  rewrite !process_knock_lookup_same, !process_knock_gateway_calls,
    !process_knock_outcome.
  by rewrite advance_after_cleanup.
Qed.

Lemma sweep_then_knock_example :
  let ka : gmap string session := {[ "192.0.2.1" := Session [1234; 5678] 0 ]} in
  let swept := (cleanup 10 ka 11).1 in
  let r := process_knock [1234; 5678; 9012] 10 2222
             ka 9012 "192.0.2.1" 12 RunOk in
  let r' := process_knock [1234; 5678; 9012] 10 2222
              swept 9012 "192.0.2.1" 12 RunOk in
  r'.1.1 !! "192.0.2.1" = r.1.1 !! "192.0.2.1"
  ∧ gateway_calls r'.1.2 = gateway_calls r.1.2
  ∧ r'.2 = r.2.
Proof.
  intros ka.
  apply (sweep_does_not_change_later_knocks [1234; 5678; 9012] 10 2222
           ka 11 9012 "192.0.2.1" 12 RunOk).
  discriminate.
Defined.

(** X6. A second sweep at the same or an earlier time removes nothing
    and logs nothing. *)
Theorem second_sweep_is_a_no_op
    (window_seconds : Q) (ka : gmap string session) (t t' : Q) :
  (t' <= t)%Q →
  cleanup window_seconds (cleanup window_seconds ka t).1 t'
  = ((cleanup window_seconds ka t).1, []).
Proof.
  intros Hle. unfold cleanup at 1.
  replace (expired_ips window_seconds (cleanup window_seconds ka t).1 t')
    with (@nil string); [done|].
  symmetry. apply elem_of_nil_inv. intros ip Hin.
  apply elem_of_expired_ips in Hin as (s & Hs & Hexp).
  rewrite cleanup_lookup in Hs. destruct (ka !! ip) as [s0|]; [|done].
  destruct (expired window_seconds t s0) eqn:E; [done|].
  injection Hs as ->. apply (expired_later _ _ _ _ Hle) in Hexp. congruence.
Qed.

Lemma second_sweep_example :
  let ka : gmap string session :=
    {[ "192.0.2.1" := Session [1234] 0; "192.0.2.2" := Session [1234] 5 ]} in
  cleanup 10 (cleanup 10 ka 12).1 12 = ((cleanup 10 ka 12).1, []).
Proof.
  intros ka. apply (second_sweep_is_a_no_op 10 ka 12 12). discriminate.
Defined.

(** ** Binding the sockets *)

Lemma bind_result_tl (binds : list bool) (i : nat) :
  default true (binds !! S i) = default true (tl binds !! i).
Proof. by destruct binds. Qed.

Lemma bind_result_hd (binds : list bool) :
  default true (binds !! 0%nat) = hd true binds.
Proof. by destruct binds. Qed.

(** X7. The port of index [i] of the sequence is bound when the [i]-th
    [bind] succeeds.  The sockets of the loop are the ports whose [bind]
    succeeded, in the order of the sequence; every port gets one log line,
    in the order of the sequence: the line of line 81 if its [bind]
    succeeded and the error line of line 83 if it failed.  So a port that
    cannot be bound is skipped with one error line and the others are
    still served; when every [bind] succeeds the sockets are the whole
    sequence. *)
Theorem listeners_follow_the_sequence (ports : list Z) (binds : list bool) :
  let bound (i : nat) := default true (binds !! i) in
  (create_listeners ports binds).1
  = (filter (λ pb, pb.2 = true) (imap (λ i p, (p, bound i)) ports)).*1
  ∧ (create_listeners ports binds).2
    = imap (λ i p, if bound i then Log INFO (MsgListening p)
                   else Log ERROR (MsgBindFailed p)) ports
  ∧ (create_listeners ports binds).1 `sublist_of` ports
  ∧ (Forall (λ b, b = true) binds → (create_listeners ports binds).1 = ports).
Proof.
  cbn zeta. revert binds. induction ports as [|p ports IH]; intros binds.
  - by repeat split.
  - cbn [create_listeners imap].
    destruct (IH (tl binds)) as (Hsockets & Hlog & Hsub & Hall).
    destruct (create_listeners ports (tl binds)) as [sockets effs].
    cbn [fst snd] in *.
    assert (Forall (λ b, b = true) binds →
            hd true binds = true ∧ Forall (λ b, b = true) (tl binds)) as Hb.
    { intros [|b binds' Hb1 Hb2]; by split. }
    rewrite filter_cons. cbn [snd]. rewrite bind_result_hd.
    rewrite (imap_ext _ (λ i p, (p, default true (tl binds !! i))) ports)
      by (intros; unfold compose; by rewrite bind_result_tl).
    rewrite (imap_ext
               (_ ∘ S)
               (λ i p, if default true (tl binds !! i)
                       then Log INFO (MsgListening p)
                       else Log ERROR (MsgBindFailed p)) ports)
      by (intros; unfold compose; by rewrite bind_result_tl).
    rewrite <- Hlog.
    destruct (hd true binds) eqn:Hhd; cbn [fst snd].
    + rewrite decide_True by done. rewrite fmap_cons, <- Hsockets.
      repeat split.
      * by apply sublist_skip.
      * intros [_ H]%Hb. f_equal. by apply Hall.
    + rewrite decide_False by done. rewrite <- Hsockets. repeat split.
      * by apply sublist_cons.
      * by intros [? _]%Hb.
Qed.

Lemma all_ports_bound_example :
  (create_listeners [1234; 5678; 9012] [true; true; true]).1
  = [1234; 5678; 9012].
Proof.
  apply (listeners_follow_the_sequence [1234; 5678; 9012] [true; true; true]).
  by repeat constructor.
Defined.

(** ** A whole sequence of knocks *)

Section Solo.

Variable sequence : list Z.
Variable window_seconds : Q.
Variable protected_port : Z.
Implicit Types (ka : gmap string session) (ip : string) (st : server).

Local Abbreviation poll_socket :=
  (poll_socket sequence window_seconds protected_port).
Local Abbreviation poll_sockets :=
  (poll_sockets sequence window_seconds protected_port).
Lemma poll_sockets_idle ka (socks : list Z) :
  poll_sockets ka socks [] = (ka, []).
Proof.
  induction socks as [|p socks IH]; simpl; [done|]. by rewrite IH.
Qed.

(** A connection on the socket of index [k] only. *)
Lemma poll_sockets_single ka (socks : list Z) (k : nat) (p : Z) a :
  socks !! k = Some p →
  poll_sockets ka socks (replicate k AcceptTimeout ++ [a])
  = poll_socket ka p a.
Proof.
  revert k. induction socks as [|q socks IH]; intros k Hk; [done|].
  destruct k as [|k]; simpl in *.
  - injection Hk as ->.
    destruct (poll_socket ka p a) as [ka1 effs1].
    by rewrite poll_sockets_idle, app_nil_r.
  - rewrite (IH k Hk). by destruct (poll_socket ka p a).
Qed.

Lemma knock_iteration st (k : nat) (p : Z) ip t sweep run :
  sequence !! k = Some p →
  let st' := loop_iteration sequence window_seconds protected_port sequence st
               (knock_on ip (k, t, sweep, run)) in
  knock_attempts st'
  = (cleanup window_seconds
       (poll_socket (knock_attempts st) p (Accepted ip t run)).1 sweep).1
  ∧ gateway_calls (trace st')
    = gateway_calls (trace st)
      ++ gateway_calls (poll_socket (knock_attempts st) p
                          (Accepted ip t run)).2.
Proof.
  intros Hk. unfold loop_iteration, knock_on. cbn [accepts sweep_time].
  rewrite (poll_sockets_single _ _ _ _ _ Hk).
  destruct (poll_socket (knock_attempts st) p (Accepted ip t run))
    as [ka1 effs1].
  pose proof (cleanup_quiet window_seconds ka1 sweep) as Hq.
  apply gateway_calls_quiet in Hq. cbn [fst snd].
  destruct (cleanup window_seconds ka1 sweep) as [ka2 effs2].
  simpl in *. split; [done|].
  by rewrite !gateway_calls_app, Hq, app_nil_r.
Qed.

(** The knocks that complete an attempt: [knocked] are the ports recorded
    so far, [events] the remaining connections and [ports] their ports. *)
Lemma attempt_from (events : list (nat * Q * Q * run_result)) :
  ∀ (pending knocked : list Z) st ip (t0 : Q),
  Forall2 (λ ev p, sequence !! ev.1.1.1 = Some p) events pending →
  (length knocked + length events = length sequence)%nat →
  events ≠ [] →
  knock_attempts st !! ip = entry_after knocked t0 →
  (knocked = [] → ∃ socket sweep run rest,
                    events = (socket, t0, sweep, run) :: rest) →
  (∀ i socket t sweep run,
     events !! i = Some (socket, t, sweep, run) →
     ¬ (window_seconds < t - t0)%Q
     ∧ ((S i < length events)%nat → ¬ (window_seconds < sweep - t0)%Q)) →
  let st' := fold_left
               (loop_iteration sequence window_seconds protected_port sequence)
               (map (knock_on ip) events) st in
  gateway_calls (trace st')
  = gateway_calls (trace st)
    ++ (if bool_decide (knocked ++ pending = sequence)
        then [InsertAccept protected_port ip] else [])
  ∧ (∀ socket t sweep run,
       last events = Some (socket, t, sweep, run) →
       handled run = true ∨ knocked ++ pending ≠ sequence →
       knock_attempts st' !! ip = None).
Proof.
  induction events as [|[[[k t] sweep] run] rest IH];
    intros pending knocked st ip t0 Hports Hlen Hne Hentry Hfirst Hwin; [done|].
  inversion Hports as [|? p ? pending' Hp Hports']; subst. simpl in Hp, Hlen.
  destruct (Hwin 0%nat k t sweep run eq_refl) as [Hknock Hsweep].
  simpl in Hsweep.
  (* the entry recorded by this knock *)
  assert (advance window_seconds t p (knock_attempts st !! ip)
          = Session (knocked ++ [p]) t0) as Hadv.
  { rewrite Hentry. destruct knocked as [|q knocked]; simpl.
    - destruct (Hfirst eq_refl) as (? & ? & ? & ? & Heq).
      injection Heq as _ Ht _ _ _. by subst t.
    - by assert (expired window_seconds t (Session (q :: knocked) t0)
                 = false) as -> by by apply not_expired_spec. }
  assert (length (knocked ++ [p]) = S (length knocked)) as Hlen'
    by (rewrite length_app; simpl; lia).
  cbn [map fold_left].
  destruct (knock_iteration st k p ip t sweep run Hp) as [Hka Htr].
  set (st1 := loop_iteration sequence window_seconds protected_port
                sequence st _) in *.
  rewrite poll_socket_gateway_calls, Hadv in Htr. cbn [ports] in Htr.
  destruct rest as [|x rest].
  - (* the last knock *)
    inversion Hports'; subst. simpl. split; [exact Htr|].
    intros k' t' sweep' run' [= -> -> -> ->] Hresolved.
    rewrite Hka, cleanup_lookup, poll_socket_lookup_same, Hadv.
    cbn zeta. cbn [ports].
    rewrite bool_decide_eq_true_2 by (rewrite Hlen'; simpl in Hlen; lia).
    destruct Hresolved as [Hrun|Hwrong].
    + by rewrite Hrun, andb_false_r.
    + by rewrite (bool_decide_eq_false_2 _ Hwrong).
  - (* more knocks to come *)
    assert (knocked ++ [p] ≠ sequence) as Hshort.
    { intros E. rewrite E in Hlen'. simpl in Hlen. lia. }
    assert (knock_attempts st1 !! ip = entry_after (knocked ++ [p]) t0)
      as Hentry1.
    { rewrite Hka, cleanup_lookup, poll_socket_lookup_same, Hadv.
      cbn zeta. cbn [ports].
      rewrite bool_decide_eq_false_2 by (rewrite Hlen'; simpl in Hlen; lia).
      assert (expired window_seconds sweep (Session (knocked ++ [p]) t0)
              = false) as ->.
      { apply not_expired_spec. apply Hsweep. simpl. lia. }
      by destruct knocked. }
    destruct (IH pending' (knocked ++ [p]) st1 ip t0) as [Hcalls Hgone].
    + done.
    + rewrite Hlen'. simpl in *. lia.
    + done.
    + exact Hentry1.
    + by destruct knocked.
    + intros i k' t' sweep' run' Hi.
      destruct (Hwin (S i) k' t' sweep' run' Hi) as [H1 H2].
      split; [done|]. intros Hlt. apply H2. simpl in *. lia.
    + rewrite <- app_assoc in Hcalls, Hgone. cbn [app] in Hcalls, Hgone.
      split.
      * rewrite Hcalls, Htr.
        by rewrite (bool_decide_eq_false_2 _ Hshort), app_nil_r.
      * intros k' t' sweep' run' Hlast. apply (Hgone k' t' sweep').
        by rewrite last_cons_cons in Hlast.
Qed.

End Solo.

Lemma create_listeners_all_bound (ports : list Z) (binds : list bool) :
  Forall (λ b, b = true) binds → (create_listeners ports binds).1 = ports.
Proof.
  revert binds. induction ports as [|p ports IH]; intros binds Hb; [done|].
  simpl. specialize (IH (tl binds)).
  destruct (create_listeners ports (tl binds)) as [sockets effs].
  destruct Hb as [|b binds Hb1 Hb2]; simpl in *.
  - by rewrite IH.
  - subst b. by rewrite IH.
Qed.

Lemma listen_for_knocks_app
    (sequence : list Z) (window_seconds : Q) (protected_port : Z)
    (binds : list bool) (its1 its2 : list iteration) :
  listen_for_knocks sequence window_seconds protected_port binds
    (its1 ++ its2)
  = fold_left
      (loop_iteration sequence window_seconds protected_port
         (create_listeners sequence binds).1)
      its2
      (listen_for_knocks sequence window_seconds protected_port binds its1).
Proof.
  unfold listen_for_knocks.
  destruct (create_listeners sequence binds) as [sockets effs].
  by rewrite fold_left_app.
Qed.

(** X8. A full attempt is granted exactly when it is the sequence.  Let
    every port of the sequence be bound and let an address without an
    entry make as many connections as the sequence has ports, one per
    iteration, every one within the window of the first, and no sweep
    before the last connection later than that.  Then the server opens
    the protected port for the address, once and with the last knock, if
    the ports knocked are the sequence in order, and does not call the
    gateway otherwise; the entry of the address is gone afterwards (on a
    match, provided [open_protected_port] returns). *)
Theorem full_attempt_is_granted_iff_correct
    (sequence : list Z) (window_seconds : Q) (protected_port : Z)
    (binds : list bool) (before : list iteration) (ip : string) (t0 : Q)
    (events : list (nat * Q * Q * run_result)) (attempt : list Z) :
  Forall (λ b, b = true) binds →
  knock_attempts
    (listen_for_knocks sequence window_seconds protected_port binds before)
    !! ip = None →
  Forall2 (λ ev p, sequence !! ev.1.1.1 = Some p) events attempt →
  length events = length sequence →
  (∃ socket sweep run rest, events = (socket, t0, sweep, run) :: rest) →
  (∀ i socket t sweep run,
     events !! i = Some (socket, t, sweep, run) →
     ¬ (window_seconds < t - t0)%Q
     ∧ ((S i < length events)%nat → ¬ (window_seconds < sweep - t0)%Q)) →
  let st := listen_for_knocks sequence window_seconds protected_port
              binds before in
  let st' := listen_for_knocks sequence window_seconds protected_port
               binds (before ++ map (knock_on ip) events) in
  gateway_calls (trace st')
  = gateway_calls (trace st)
    ++ (if bool_decide (attempt = sequence)
        then [InsertAccept protected_port ip] else [])
  ∧ (∀ socket t sweep run,
       last events = Some (socket, t, sweep, run) →
       handled run = true ∨ attempt ≠ sequence →
       knock_attempts st' !! ip = None).
Proof.
  intros Hbinds Hnone Hports Hlen Hfirst Hwin st st'. subst st st'.
  rewrite listen_for_knocks_app, create_listeners_all_bound by done.
  apply (attempt_from sequence window_seconds protected_port events
           attempt [] _ ip t0); try done.
  destruct Hfirst as (? & ? & ? & ? & ->). done.
Qed.

Lemma correct_sequence_example :
  let st' := listen_for_knocks [1234; 5678; 9012] 10 2222 []
               ([] ++ map (knock_on "192.0.2.1") three_knocks_in_time) in
  gateway_calls (trace st')
  = gateway_calls (trace (listen_for_knocks [1234; 5678; 9012] 10 2222 [] []))
    ++ [InsertAccept 2222 "192.0.2.1"]
  ∧ (∀ socket t sweep run,
       last three_knocks_in_time = Some (socket, t, sweep, run) →
       handled run = true ∨ [1234; 5678; 9012] ≠ [1234; 5678; 9012] →
       knock_attempts st' !! "192.0.2.1" = None).
Proof.
  apply (full_attempt_is_granted_iff_correct [1234; 5678; 9012] 10 2222 [] []
           "192.0.2.1" 1%Q three_knocks_in_time [1234; 5678; 9012]).
  - constructor.
  - reflexivity.
  - by repeat constructor.
  - reflexivity.
  - by eexists _, _, _, _.
  - intros [|[|[|i]]] socket t sweep run H; try discriminate H;
      injection H as <- <- <- <-; (split; [intros H; discriminate H|]);
      simpl; intros Hlt; try lia; intros H; discriminate H.
Defined.

(** ** Two addresses taking turns *)

Lemma record_knock_local w (ka ka' : gmap string session) ip port t :
  ka !! ip = ka' !! ip →
  (record_knock w ka ip port t).2 = (record_knock w ka' ip port t).2.
Proof.
  intros H. unfold record_knock. rewrite <- H.
  destruct (ka !! ip) as [s|] eqn:E.
  - rewrite E, <- H. destruct (expired w t s); done.
  - rewrite !lookup_insert_eq. destruct (expired w t _); done.
Qed.

(** What a knock does for its address depends on the entry of that
    address alone. *)
Lemma process_knock_local sequence w pp (ka ka' : gmap string session)
    port ip t run :
  ka !! ip = ka' !! ip →
  let r := process_knock sequence w pp ka port ip t run in
  let r' := process_knock sequence w pp ka' port ip t run in
  r'.1.1 !! ip = r.1.1 !! ip ∧ r'.1.2 = r.1.2 ∧ r'.2 = r.2.
Proof.
  intros H. cbn zeta.
  rewrite !process_knock_lookup_same, !process_knock_outcome, H.
  split; [done|]. split; [|done].
  pose proof (record_knock_local w ka ka' ip port t H) as Hrec.
  destruct (process_knock_cases sequence w ka port ip t) as [Hc|[[H1 H2]|Hc]].
  - rewrite (process_knock_short _ _ _ ka) by done.
    rewrite (process_knock_short _ _ _ ka') by by rewrite <- H.
    simpl. by rewrite Hrec, H.
  - rewrite (process_knock_mismatch _ _ _ ka) by done.
    rewrite (process_knock_mismatch _ _ _ ka') by by rewrite <- H.
    simpl. by rewrite Hrec, H.
  - rewrite (process_knock_match _ _ _ ka) by done.
    rewrite (process_knock_match _ _ _ ka') by by rewrite <- H.
    simpl. by rewrite Hrec.
Qed.

Lemma poll_socket_other sequence w pp (ka : gmap string session)
    port ip t run ip' :
  ip ≠ ip' →
  (poll_socket sequence w pp ka port (Accepted ip t run)).1 !! ip' = ka !! ip'.
Proof.
  intros Hne. rewrite poll_socket_accepted. cbn [fst].
  by apply process_knock_other.
Qed.

Section Pair.

Variable sequence : list Z.
Variable window_seconds : Q.
Variable protected_port : Z.
Variables A B : string.
Hypothesis HAB : A ≠ B.
Implicit Types (ka : gmap string session) (st : server).

(** The entry that the next connection of an address records. *)
Lemma next_knock_entry (knocked : list Z) (p : Z) (o : option session)
    (t t0 : Q) :
  o = entry_after knocked t0 →
  (knocked = [] → t = t0) →
  (t - t0 <= window_seconds)%Q →
  advance window_seconds t p o = Session (knocked ++ [p]) t0.
Proof.
  intros -> Hfirst Hwin. destruct knocked as [|q knocked]; simpl.
  - by rewrite Hfirst.
  - assert (expired window_seconds t (Session (q :: knocked) t0) = false)
      as ->; [|done].
    apply not_expired_spec. simpl. by apply Qle_not_lt.
Qed.

(** A sweep within the window keeps the entry. *)
Lemma entry_kept ka ip (knocked : list Z) (t0 sweep : Q) :
  ka !! ip = entry_after knocked t0 →
  (sweep - t0 <= window_seconds)%Q →
  (cleanup window_seconds ka sweep).1 !! ip = entry_after knocked t0.
Proof.
  intros H Hwin. rewrite cleanup_lookup, H.
  destruct knocked as [|q knocked]; [done|]. simpl.
  assert (expired window_seconds sweep (Session (q :: knocked) t0) = false)
    as ->; [|done].
  apply not_expired_spec. simpl. by apply Qle_not_lt.
Qed.

(** The rounds that complete the attempts of [A] and [B]: [knocked] are
    the ports both have on record, [pending] the ports to come. *)
Lemma two_attempts_from
    (rounds : list ((Q * Q * run_result) * (Q * Q * run_result))) :
  ∀ (knocked pending : list Z) st (tA0 tB0 : Q),
  knocked ++ pending = sequence →
  length rounds = length pending →
  rounds ≠ [] →
  knock_attempts st !! A = entry_after knocked tA0 →
  knock_attempts st !! B = entry_after knocked tB0 →
  (knocked = [] → ∃ sweepA runA sweepB runB rest,
     rounds = ((tA0, sweepA, runA), (tB0, sweepB, runB)) :: rest) →
  Forall (λ r, Forall (λ x, (x - tA0 <= window_seconds)%Q
                            ∧ (x - tB0 <= window_seconds)%Q)
                      (round_times r)) rounds →
  gateway_calls
    (trace (fold_left
              (loop_iteration sequence window_seconds protected_port sequence)
              (interleaved A B (length knocked) rounds) st))
  = gateway_calls (trace st)
    ++ [InsertAccept protected_port A; InsertAccept protected_port B].
Proof.
  induction rounds as [|[[[tA sA] rA] [[tB sB] rB]] rest IH];
    intros knocked pending st tA0 tB0 Hseq Hlen Hne HA HB Hfirst Hwin;
    [done|].
  destruct pending as [|p pending']; [done|]. simpl in Hlen.
  assert (sequence !! length knocked = Some p) as Hk
    by (rewrite <- Hseq; by apply list_lookup_middle).
  apply Forall_cons in Hwin as [Hround Hwin]. cbn [round_times] in Hround.
  apply Forall_cons in Hround as [[HtA _] Hround].
  apply Forall_cons in Hround as [[HsA HsA'] Hround].
  apply Forall_cons in Hround as [[_ HtB] Hround].
  apply Forall_cons in Hround as [[HsB HsB'] _].
  assert (knocked = [] → tA = tA0 ∧ tB = tB0) as Hstart.
  { intros Hnil. destruct (Hfirst Hnil) as (? & ? & ? & ? & ? & Heq).
    by injection Heq as -> _ _ -> _ _ _. }
  assert (length (knocked ++ [p]) = S (length knocked)) as Hlen'
    by (rewrite length_app; simpl; lia).
  assert (length sequence = (length knocked + S (length pending'))%nat)
    as Hlens by (rewrite <- Hseq, length_app; simpl; lia).
  assert (∀ t0, entry_after (knocked ++ [p]) t0
                = Some (Session (knocked ++ [p]) t0)) as Hentry
    by (intros; by destruct knocked).
  cbn [interleaved fold_left].
  (* the iteration of [A] *)
  destruct (knock_iteration sequence window_seconds protected_port
              st (length knocked) p A tA sA rA Hk) as [Hka1 Htr1].
  set (st1 := loop_iteration sequence window_seconds protected_port
                sequence st _) in *.
  assert (advance window_seconds tA p (knock_attempts st !! A)
          = Session (knocked ++ [p]) tA0) as HadvA.
  { apply next_knock_entry; [done| |done]. by intros [? _]%Hstart. }
  rewrite poll_socket_gateway_calls, HadvA in Htr1. cbn [ports] in Htr1.
  assert (knock_attempts st1 !! B = entry_after knocked tB0) as HB1.
  { rewrite Hka1. apply entry_kept; [|done].
    by rewrite poll_socket_other. }
  (* the iteration of [B] *)
  destruct (knock_iteration sequence window_seconds protected_port
              st1 (length knocked) p B tB sB rB Hk) as [Hka2 Htr2].
  set (st2 := loop_iteration sequence window_seconds protected_port
                sequence st1 _) in *.
  assert (advance window_seconds tB p (knock_attempts st1 !! B)
          = Session (knocked ++ [p]) tB0) as HadvB.
  { apply next_knock_entry; [done| |done]. by intros [_ ?]%Hstart. }
  rewrite poll_socket_gateway_calls, HadvB in Htr2. cbn [ports] in Htr2.
  destruct rest as [|x rest].
  - (* the last round *)
    destruct pending' as [|? ?]; [|done].
    cbn [interleaved fold_left].
    rewrite Htr2, Htr1, !bool_decide_eq_true_2 by done.
    by rewrite <- app_assoc.
  - (* more rounds to come *)
    assert (length (knocked ++ [p]) ≠ length sequence) as Hshort
      by (simpl in Hlen; lia).
    assert (knocked ++ [p] ≠ sequence) as Hshort' by congruence.
    rewrite !(bool_decide_eq_false_2 _ Hshort'), app_nil_r in Htr1, Htr2.
    assert (knock_attempts st1 !! A = entry_after (knocked ++ [p]) tA0)
      as HA1.
    { rewrite Hka1. apply entry_kept; [|done].
      rewrite poll_socket_lookup_same, HadvA. cbn zeta. cbn [ports].
      by rewrite (bool_decide_eq_false_2 _ Hshort), Hentry. }
    assert (knock_attempts st2 !! A = entry_after (knocked ++ [p]) tA0)
      as HA2.
    { rewrite Hka2. apply entry_kept; [|done].
      by rewrite poll_socket_other. }
    assert (knock_attempts st2 !! B = entry_after (knocked ++ [p]) tB0)
      as HB2.
    { rewrite Hka2. apply entry_kept; [|done].
      rewrite poll_socket_lookup_same, HadvB. cbn zeta. cbn [ports].
      by rewrite (bool_decide_eq_false_2 _ Hshort), Hentry. }
    rewrite <- Hlen'.
    rewrite (IH (knocked ++ [p]) pending' st2 tA0 tB0); try done.
    + by rewrite Htr2, Htr1.
    + by rewrite <- app_assoc.
    + simpl in Hlen |- *. lia.
    + intros Hnil. by destruct knocked.
Qed.

End Pair.

(** C6. A knock from address [A] changes at most the entry of [A]: the
    entry of every other address [B] is the same before and after.  What
    the knock does for [A] (its new entry, what is logged and asked of
    [iptables], whether an exception escapes) depends on the entry of [A]
    alone: it is the same in two dicts that agree on [A].  So two
    addresses taking turns, as in
    [A:1234, B:1234, A:5678, B:5678, A:9012, B:9012], each complete the
    sequence on their own.  For every sequence, all of its ports bound,
    and two different addresses without an entry: when [A] and [B] take
    turns to connect to each port of the sequence in order, one
    connection per iteration, every connection and sweep within the
    window of either first knock, the server opens the protected port
    once for [A] and once for [B], and calls the gateway for nothing
    else. *)
Theorem knocks_of_other_addresses_do_not_interfere
    (sequence : list Z) (window_seconds : Q) (protected_port : Z)
    (A B : string) :
  A ≠ B →
  (∀ (ka : gmap string session) (port : Z) (t : Q) (run : run_result),
     (process_knock sequence window_seconds protected_port
        ka port A t run).1.1 !! B = ka !! B)
  ∧ (∀ (ka ka' : gmap string session) (port : Z) (t : Q) (run : run_result),
       ka !! A = ka' !! A →
       let r := process_knock sequence window_seconds protected_port
                  ka port A t run in
       let r' := process_knock sequence window_seconds protected_port
                   ka' port A t run in
       r'.1.1 !! A = r.1.1 !! A ∧ r'.1.2 = r.1.2 ∧ r'.2 = r.2)
  ∧ (∀ (binds : list bool) (before : list iteration)
       (tA0 sweepA0 : Q) (runA0 : run_result)
       (tB0 sweepB0 : Q) (runB0 : run_result)
       (rest : list ((Q * Q * run_result) * (Q * Q * run_result))),
       let rounds := ((tA0, sweepA0, runA0), (tB0, sweepB0, runB0)) :: rest in
       let st := listen_for_knocks sequence window_seconds protected_port
                   binds before in
       let st' := listen_for_knocks sequence window_seconds protected_port
                    binds (before ++ interleaved A B 0 rounds) in
       Forall (λ b, b = true) binds →
       knock_attempts st !! A = None →
       knock_attempts st !! B = None →
       length rounds = length sequence →
       Forall (λ r, Forall (λ x, (x - tA0 <= window_seconds)%Q
                                 ∧ (x - tB0 <= window_seconds)%Q)
                           (round_times r)) rounds →
       gateway_calls (trace st')
       = gateway_calls (trace st)
         ++ [InsertAccept protected_port A; InsertAccept protected_port B]).
Proof.
  intros HAB. split; [|split].
  - intros. by apply process_knock_other.
  - intros ka ka' port t run H. by apply process_knock_local.
  - intros binds before tA0 sweepA0 runA0 tB0 sweepB0 runB0 rest
      rounds st st' Hbinds HA HB Hlen Hwin. subst st st'.
    rewrite listen_for_knocks_app, create_listeners_all_bound by done.
    apply (two_attempts_from sequence window_seconds protected_port A B HAB
             rounds [] sequence _ tA0 tB0); try done.
    intros _. by eexists _, _, _, _, _.
Qed.

Lemma two_addresses_example :
  let ka : gmap string session := {[ "192.0.2.2" := Session [1234] 0 ]} in
  (process_knock [1234; 5678; 9012] 10 2222
     ka 1234 "192.0.2.1" 1 RunOk).1.1 !! "192.0.2.2" = ka !! "192.0.2.2"
  ∧ (process_knock [1234; 5678; 9012] 10 2222 ∅ 1234 "192.0.2.1" 1 RunOk).1.2
    = (process_knock [1234; 5678; 9012] 10 2222 ka 1234 "192.0.2.1" 1 RunOk).1.2
  ∧ gateway_calls
      (trace (listen_for_knocks [1234; 5678; 9012] 10 2222 []
                ([] ++ interleaved "192.0.2.1" "192.0.2.2" 0 six_knocks)))
    = gateway_calls
        (trace (listen_for_knocks [1234; 5678; 9012] 10 2222 [] []))
      ++ [InsertAccept 2222 "192.0.2.1"; InsertAccept 2222 "192.0.2.2"].
Proof.
  intros ka.
  assert ("192.0.2.1" ≠ "192.0.2.2") as Hne by (intros H; discriminate H).
  destruct (knocks_of_other_addresses_do_not_interfere
              [1234; 5678; 9012] 10 2222 "192.0.2.1" "192.0.2.2" Hne)
    as (Hframe & Hlocal & Hturns).
  split; [apply Hframe|].
  split; [apply (Hlocal ka ∅ 1234 1%Q RunOk); reflexivity|].
  apply (Hturns [] [] 1%Q 1%Q RunOk 2%Q 2%Q RunOk
           [((3%Q, 3%Q, RunOk), (4%Q, 4%Q, RunOk));
            ((5%Q, 5%Q, RunOk), (6%Q, 6%Q, RunOk))]).
  - constructor.
  - reflexivity.
  - reflexivity.
  - reflexivity.
  - repeat (constructor; try (split; intros H; discriminate H)).
Defined.

(** ** The knock client *)


















(** ** The port scanner *)

Lemma split_fields_no_sep (sep : ascii) (s : string) :
  Forall (λ field, all_chars (λ c, negb (Ascii.eqb c sep)) field = true)
         (split sep s).
Proof.
  induction s as [|a s IH]; simpl.
  - by repeat constructor.
  - destruct (Ascii.eqb a sep) eqn:E.
    + by constructor.
    + destruct (split sep s) as [|field fields]; simpl.
      * repeat constructor. simpl. by rewrite E.
      * inversion IH as [|? ? Hfield Hfields]; subst.
        constructor; [|done]. simpl. by rewrite E, Hfield.
Qed.

Lemma all_chars_lstrip f (s : string) :
  all_chars f s = true → all_chars f (lstrip s) = true.
Proof.
  induction s as [|a s IH]; simpl; [done|].
  rewrite andb_true_iff. intros [Ha Hs].
  destruct (py_isspace a); [auto|]. simpl. by rewrite Ha, Hs.
Qed.

Lemma all_chars_rstrip f (s : string) :
  all_chars f s = true → all_chars f (rstrip s) = true.
Proof.
  intros H. unfold rstrip, String.rev.
  rewrite all_chars_rev_app, andb_true_r. apply all_chars_lstrip.
  by rewrite all_chars_rev_app, H.
Qed.

Lemma digit_value_nonneg (c : ascii) (d : Z) :
  digit_value c = Some d → (0 ≤ d)%Z.
Proof.
  unfold digit_value. destruct (_ && _)%bool; [|done].
  intros [= <-]. lia.
Qed.

Lemma parse_digits_nonneg (s : string) :
  ∀ acc b z, (0 ≤ acc)%Z → parse_digits acc b s = Some z → (0 ≤ z)%Z.
Proof.
  induction s as [|c s IH]; intros acc b z Hacc; simpl.
  - destruct b; [|done]. by intros [= <-].
  - destruct (digit_value c) as [d|] eqn:Hd.
    + apply digit_value_nonneg in Hd. apply IH. lia.
    + destruct (_ && _)%bool; [|done]. by apply IH.
Qed.

Lemma int_literal_nonneg (s : string) (z : Z) :
  all_chars (λ c, negb (Ascii.eqb c "-")) s = true →
  int_literal s = Some z → (0 ≤ z)%Z.
Proof.
  intros Hs. unfold int_literal.
  pose proof (all_chars_rstrip _ _ (all_chars_lstrip _ _ Hs)) as Hstripped.
  destruct (rstrip (lstrip s)) as [|c rest].
  - done.
  - simpl in Hstripped. apply andb_true_iff in Hstripped as [Hc _].
    apply negb_true_iff in Hc.
    assert (parse_digits 0 false rest = Some z → (0 ≤ z)%Z) as Hplus
      by by apply parse_digits_nonneg.
    assert (parse_digits 0 false (String c rest) = Some z → (0 ≤ z)%Z)
      as Hplain by by apply parse_digits_nonneg.
    destruct c as [b0 b1 b2 b3 b4 b5 b6 b7].
    destruct b0, b1, b2, b3, b4, b5, b6, b7;
      try exact Hplain; try exact Hplus; discriminate Hc.
Qed.

(** Without a minus sign, [int] gives a number that is not negative. *)
Lemma py_int_nonneg (s : string) (z : Z) :
  all_chars (λ c, negb (Ascii.eqb c "-")) s = true →
  py_int s = Some z → (0 ≤ z)%Z.
Proof. intros Hs H%py_int_Some. by eapply int_literal_nonneg. Qed.

(** X10. When [parse_ports] accepts a text, the text has exactly one dash
    and the two ports returned are not negative: a minus sign is always
    taken for the separator, so a negative port cannot be given. *)
Theorem parse_ports_never_negative (port_range : string) (a b : Z) :
  parse_ports port_range = Some (a, b) →
  count_char "-" port_range = 1%nat ∧ (0 ≤ a)%Z ∧ (0 ≤ b)%Z.
Proof.
  unfold parse_ports. intros H.
  pose proof (length_split "-" port_range) as Hlen.
  pose proof (split_fields_no_sep "-" port_range) as Hfields.
  destruct (split "-" port_range) as [|start [|end_ [|more fields]]];
    try done.
  inversion Hfields as [|? ? Hstart Hrest]; subst.
  inversion Hrest as [|? ? Hend _]; subst.
  destruct (py_int start) as [a'|] eqn:Ha; [|done].
  destruct (py_int end_) as [b'|] eqn:Hb; [|done].
  injection H as -> ->. simpl in Hlen.
  split; [lia|].
  split; [exact (py_int_nonneg start a Hstart Ha)
         |exact (py_int_nonneg end_ b Hend Hb)].
Qed.

Lemma parse_ports_example :
  count_char "-" " 20-1_024" = 1%nat ∧ (0 ≤ 20)%Z ∧ (0 ≤ 1024)%Z.
Proof.
  apply (parse_ports_never_negative " 20-1_024" 20 1024). reflexivity.
Defined.

Lemma str_nonneg_no_dash (n : Z) :
  (0 ≤ n)%Z → all_chars (λ c, negb (Ascii.eqb c "-")) (str_int n) = true.
Proof.
  intros Hn. unfold str_int.
  rewrite (proj2 (Z.ltb_ge n 0)) by done.
  apply str_digits_chars; [|done..].
  intros d Hd. destruct (number_char_digit d Hd) as [_ ->]. done.
Qed.

Lemma count_char_app (c : ascii) (s1 s2 : string) :
  count_char c (s1 ++ s2)%string = (count_char c s1 + count_char c s2)%nat.
Proof.
  induction s1 as [|a s1 IH]; [done|].
  rewrite append_cons. simpl. rewrite IH. lia.
Qed.

Lemma count_char_negative (n : Z) :
  (n < 0)%Z → (1 ≤ count_char "-" (str_int n))%nat.
Proof.
  intros Hn. unfold str_int. rewrite (proj2 (Z.ltb_lt n 0)) by done.
  simpl. lia.
Qed.

(** X11. Two ports that are not negative and that [str] can write (fewer
    than 4301 digits) have a text [start-end], which [parse_ports] reads
    back as these two ports.  Whenever [str] writes both numbers, the text
    is read back as the two ports if neither is negative and rejected
    otherwise. *)
Theorem parse_ports_round_trip (a b : Z) :
  ((0 ≤ a < 10 ^ INT_MAX_STR_DIGITS)%Z → (0 ≤ b < 10 ^ INT_MAX_STR_DIGITS)%Z →
   ∃ sa sb, py_str a = Some sa ∧ py_str b = Some sb
            ∧ parse_ports (sa ++ String "-" sb)%string = Some (a, b))
  ∧ (∀ sa sb, py_str a = Some sa → py_str b = Some sb →
       ((0 ≤ a)%Z → (0 ≤ b)%Z →
        parse_ports (sa ++ String "-" sb)%string = Some (a, b))
       ∧ ((a < 0)%Z ∨ (b < 0)%Z →
          parse_ports (sa ++ String "-" sb)%string = None)).
Proof.
  assert (∀ sa sb, py_str a = Some sa → py_str b = Some sb →
            (0 ≤ a)%Z → (0 ≤ b)%Z →
            parse_ports (sa ++ String "-" sb)%string = Some (a, b)) as Hgood.
  { intros sa sb Hsa Hsb Ha Hb. unfold parse_ports.
    pose proof (py_int_py_str _ _ Hsa) as Hia.
    pose proof (py_int_py_str _ _ Hsb) as Hib.
    apply py_str_Some in Hsa as [-> _]. apply py_str_Some in Hsb as [-> _].
    rewrite split_app_sep by by apply str_nonneg_no_dash.
    rewrite split_no_sep by by apply str_nonneg_no_dash.
    by rewrite Hia, Hib. }
  split.
  - intros [Ha Ha'] [Hb Hb'].
    exists (str_int a), (str_int b).
    assert (py_str a = Some (str_int a)) as Hsa
      by (apply py_str_bounded; by rewrite Z.abs_eq).
    assert (py_str b = Some (str_int b)) as Hsb
      by (apply py_str_bounded; by rewrite Z.abs_eq).
    auto.
  - intros sa sb Hsa Hsb. split; [by apply Hgood|].
    intros Hneg.
    apply py_str_Some in Hsa as [-> _]. apply py_str_Some in Hsb as [-> _].
    destruct (parse_ports (str_int a ++ String "-" (str_int b))%string)
      as [[x y]|] eqn:E; [|done].
    unfold parse_ports in E.
    pose proof (length_split "-" (str_int a ++ String "-" (str_int b))%string)
      as Hlen.
    rewrite count_char_app in Hlen. simpl in Hlen.
    destruct (split "-" (str_int a ++ String "-" (str_int b))%string)
      as [|start [|end_ [|more fields]]]; try done.
    simpl in Hlen.
    destruct Hneg as [H|H]; apply count_char_negative in H; lia.
Qed.

Lemma parse_ports_round_trip_example :
  ∃ sa sb, py_str 1 = Some sa ∧ py_str 1000 = Some sb
           ∧ parse_ports (sa ++ String "-" sb)%string = Some (1, 1000)%Z.
Proof.
  apply (proj1 (parse_ports_round_trip 1 1000));
    (split; [lia|]).
  - by apply (below_digit_limit 1).
  - by apply (below_digit_limit 1000).
Defined.

(** X12. The scan covers the inclusive range once, in increasing order:
    the ports of the results are [start_port, ..., end_port], none when
    [end_port < start_port].  A result is listed as open exactly when its
    port lies in the range and [connect_ex] returned 0 for it. *)
Theorem scan_covers_the_range
    (start_port end_port : Z) (net : Z → probe * Q) :
  let r := scan_range start_port end_port net in
  map scan_port_number r.1 = seqZ start_port (end_port + 1 - start_port)
  ∧ ((end_port < start_port)%Z → r.1 = [])
  ∧ (∀ res, res ∈ r.2 ↔
       ∃ port banner, (start_port ≤ port ≤ end_port)%Z
         ∧ (net port).1 = ConnectExZero banner
         ∧ res = ScanResult port OPEN (net port).2 banner).
Proof.
  unfold scan_range, py_range. cbn [fst snd]. repeat split.
  - rewrite map_map. rewrite <- (map_id (seqZ _ _)) at 2.
    apply map_ext. intros p. by destruct (net p).1.
  - intros Hlt. by rewrite seqZ_nil by lia.
  - intros Hin. apply list_elem_of_In, filter_In in Hin as [Hin Hopen].
    apply in_map_iff in Hin as (p & <- & Hp).
    apply list_elem_of_In, elem_of_seqZ in Hp.
    destruct (net p).1 as [banner| |] eqn:E; try done.
    exists p, banner. split; [lia|]. by split.
  - intros (p & banner & Hp & Hnet & ->).
    apply list_elem_of_In, filter_In. split; [|done].
    apply in_map_iff. exists p. split; [by rewrite Hnet|].
    apply list_elem_of_In, elem_of_seqZ. lia.
Qed.

Lemma scan_example :
  scan_range 22 21 (λ _, (ConnectExZero "", 0%Q)) = ([], []).
Proof.
  pose proof (scan_covers_the_range 22 21 (λ _, (ConnectExZero "", 0%Q)))
    as (_ & Hempty & _).
  unfold scan_range in *. cbn [fst snd] in *. by rewrite Hempty.
Defined.
